(** * Chat-3D v2: the multimodal context assembler, verified against its code

    A shallow embedding of [models/chat3d.py] (object token interleaver,
    sequence packer, scene coordinate bounds, text post-processing of the
    generation driver) and of the box helpers of
    [others/calc_scanrefer_grounding_acc.py].

    Conventions of the embedding.
    - A tensor of shape (n, D) is a [list] of n rows; a row (an embedding
      vector) is an element of an abstract type [E] that carries the few
      operations the code applies to whole rows ([Row]).
    - Python exceptions are the [Raise] results of [result].
    - The module-level generator of Python's [random] is an explicit tape of
      raw draws threaded through the computations that use it ([M]).
    - [detach] changes the autograd graph only, so it is the identity on
      values.
    - Where the arithmetic of embedding values matters ([get_text_emb]),
      they are IEEE 754 binary64 numbers, the kernel's primitive floats,
      with their infinities and NaN. *)

From Stdlib Require Import ZArith Lia List Reals Lra.
From Stdlib Require Floats.
From stdpp Require Import base option list.

Local Open Scope Z_scope.
Local Open Scope nat_scope.

(** ** Exceptions, results, and the random source *)

Inductive exn : Set :=
| IndexError
| ValueError
| RuntimeError
| UnboundLocalError.

Inductive result (A : Type) : Type :=
| Ok (a : A)
| Raise (e : exn).
Arguments Ok {A} a.
Arguments Raise {A} e.

#[global] Instance result_ret : MRet result := λ A a, Ok a.
#[global] Instance result_bind : MBind result := λ A B f m,
  match m with
  | Ok a => f a
  | Raise e => Raise e
  end.

(** The state of the generator: the raw draws still to come. *)
Definition rng : Type := list nat.

(** A computation that may draw random numbers and may raise. *)
Definition M (A : Type) : Type := rng → result (A * rng).

#[global] Instance M_ret : MRet M := λ A a g, Ok (a, g).
#[global] Instance M_bind : MBind M := λ A B f m g,
  match m g with
  | Ok (a, g') => f a g'
  | Raise e => Raise e
  end.

Definition lift {A} (r : result A) : M A := λ g,
  match r with
  | Ok a => Ok (a, g)
  | Raise e => Raise e
  end.

(** [random._randbelow(n)]: a draw in [0, n); an exhausted tape keeps
    answering 0. *)
Definition randbelow (n : nat) : M nat := λ g,
  match g with
  | [] => Ok (0, [])
  | d :: g' => Ok (d `mod` n, g')
  end.

(** [random.randint(a, b)] is [a + randbelow(b - a + 1)]. *)
Definition randint (a b : nat) : M nat :=
  j ← randbelow (b - a + 1); mret (a + j).

(** [x[i], x[j] = x[j], x[i]] *)
Definition swap {A} (x : list A) (i j : nat) : list A :=
  match x !! j, x !! i with
  | Some xj, Some xi => <[j:=xi]> (<[i:=xj]> x)
  | _, _ => x
  end.

(** [random.shuffle(x)]:
    [for i in reversed(range(1, len(x))): j = randbelow(i + 1); swap]. *)
Fixpoint shuffle_from {A} (i : nat) (x : list A) : M (list A) :=
  match i with
  | 0 => mret x
  | S i' => j ← randbelow (S i); shuffle_from i' (swap x i j)
  end.

Definition shuffle {A} (x : list A) : M (list A) :=
  shuffle_from (length x - 1) x.

(** ** Tensor primitives *)

(** [t[i]] for a non-negative integer [i]. *)
Definition index {A} (t : list A) (i : nat) : result A :=
  match t !! i with
  | Some a => Ok a
  | None => Raise IndexError
  end.

(** [t[ids]] for a Python list of non-negative indices (advanced indexing
    along the first dimension); an empty [ids] selects zero rows. *)
Fixpoint index_list {A} (t : list A) (ids : list nat) : result (list A) :=
  match ids with
  | [] => Ok []
  | i :: ids' =>
      a ← index t i; rest ← index_list t ids'; mret (a :: rest)
  end.

(** [torch.where(mask == 1)[0].tolist()], positions counted from [i]. *)
Fixpoint where_eq1 (i : nat) (mask : list Z) : list nat :=
  match mask with
  | [] => []
  | m :: mask' =>
      if (m =? 1)%Z then i :: where_eq1 (S i) mask' else where_eq1 (S i) mask'
  end.

(** Number of positions selected by the slice [start::step] of a dimension of
    size [len]. *)
Definition slice_len (len start step : nat) : nat :=
  (len - start + (step - 1)) / step.

(** The writes of [dst[start::step, :] = src], row by row. *)
Fixpoint strided_write {A} (dst : list A) (start step : nat) (src : list A)
  : list A :=
  match src with
  | [] => dst
  | r :: src' => strided_write (<[start:=r]> dst) (start + step) step src'
  end.

(** [dst[start::step, :] = src]; torch refuses a source whose row count
    differs from the slice's (both sides always have [len(valid_ids)] rows
    below). *)
Definition setitem_stride {A} (dst : list A) (start step : nat) (src : list A)
  : result (list A) :=
  if slice_len (length dst) start step =? length src
  then Ok (strided_write dst start step src)
  else Raise RuntimeError.

(** ** Rows and the model object *)

(** What the code does to whole embedding rows. *)
Class Row (E : Type) := {
  row_zero : E;                 (* a row of [torch.zeros] *)
  row_add : E → E → E;          (* elementwise [+] *)
  row_scale : Z → E → E;        (* multiplication by an integer scalar *)
}.

(** Rows may be traced as integers: a one-dimensional embedding space. *)
#[global] Instance Z_Row : Row Z :=
  {| row_zero := 0%Z; row_add := Z.add; row_scale := Z.mul |}.

(** Python [str]: a sequence of code points. *)
Definition str : Type := list N.

Definition SPACE : N := 32%N.
Definition PERIOD : N := 46%N.
Definition COLON : N := 58%N.

(** What the tokenizer returns for one text. *)
Record encoding := {
  input_ids : list Z;
  attention_mask : list Z;
}.

(** The fields of [Chat3D] the assembler reads. *)
Record Chat3D (E : Type) := {
  train_emb : bool;
  add_img_token : bool;
  add_scene_token : bool;
  end_sym : str;
  role : str * str;
  (* llama_model.model.embed_tokens on one token id *)
  embed_tokens : Z → E;
  (* llama_tokenizer(text, add_special_tokens=False) *)
  llama_tokenizer : str → encoding;
  pad_token_id : Z;
  ori_vocab_size : Z;
  objid_start_idx : nat;
  objid_end_idx : nat;
  p_0_embed : list E;
  p_1_embed : list E;
}.
Arguments train_emb {E} _.
Arguments add_img_token {E} _.
Arguments add_scene_token {E} _.
Arguments end_sym {E} _.
Arguments role {E} _.
Arguments embed_tokens {E} _ _.
Arguments llama_tokenizer {E} _ _.
Arguments pad_token_id {E} _.
Arguments ori_vocab_size {E} _.
Arguments objid_start_idx {E} _.
Arguments objid_end_idx {E} _.
Arguments p_0_embed {E} _.
Arguments p_1_embed {E} _.

Definition detach {A} (t : A) : A := t.

Section Interleaver.
Context {E : Type} `{!Row E}.

(** [embed_tokens.weight[objid_start_idx:objid_end_idx]] *)
Definition objid_embeds (self : Chat3D E) : list E :=
  (λ t, embed_tokens self (Z.of_nat t))
    <$> seq (objid_start_idx self) (objid_end_idx self - objid_start_idx self).

(** [torch.zeros((n, D))] *)
Definition zeros (n : nat) : list E := replicate n row_zero.

Definition get_object_list_embed (self : Chat3D E)
    (embed_obj : list E) (embed_img embed_scene : option (list E))
    (scene_mask : list Z) : M (list E) :=
  let valid_ids := where_eq1 0 scene_mask in
  object_list_embed ←
    (if length valid_ids =? 1 then
       let objid_embeds := objid_embeds self in
       r ← randint 0 199;
       a ← lift (index objid_embeds r);
       b ← lift (index embed_obj 0);
       mret (Some [a; b])
     else mret None);
  valid_ids ← shuffle valid_ids;
  let objid_embeds := objid_embeds self in
  let objid_embeds :=
    if negb (train_emb self) then detach objid_embeds else objid_embeds in
  selected_objid_embeds ← lift (index_list objid_embeds valid_ids);
  let n := length selected_objid_embeds in
  object_list_embed ←
    match embed_img, embed_scene with
    | None, None => lift (
        let t := zeros (n * 2) in
        t ← setitem_stride t 0 2 selected_objid_embeds;
        o ← index_list embed_obj valid_ids;
        t ← setitem_stride t 1 2 o;
        mret (Some t))
    | _, _ => mret object_list_embed
    end;
  object_list_embed ←
    match embed_img, embed_scene with
    | None, Some embed_scene => lift (
        let t := zeros (n * 3) in
        t ← setitem_stride t 0 3 selected_objid_embeds;
        o ← index_list embed_obj valid_ids;
        t ← setitem_stride t 1 3 o;
        s ← index_list embed_scene valid_ids;
        t ← setitem_stride t 2 3 s;
        mret (Some t))
    | _, _ => mret object_list_embed
    end;
  object_list_embed ←
    match embed_img, embed_scene with
    | Some embed_img, None => lift (
        let t := zeros (n * 3) in
        t ← setitem_stride t 0 3 selected_objid_embeds;
        o ← index_list embed_obj valid_ids;
        t ← setitem_stride t 1 3 o;
        m ← index_list embed_img valid_ids;
        t ← setitem_stride t 2 3 m;
        mret (Some t))
    | _, _ => mret object_list_embed
    end;
  object_list_embed ←
    match embed_img, embed_scene with
    | Some embed_img, Some embed_scene => lift (
        let t := zeros (n * 4) in
        t ← setitem_stride t 0 4 selected_objid_embeds;
        o ← index_list embed_obj valid_ids;
        t ← setitem_stride t 1 4 o;
        m ← index_list embed_img valid_ids;
        t ← setitem_stride t 2 4 m;
        s ← index_list embed_scene valid_ids;
        t ← setitem_stride t 3 4 s;
        mret (Some t))
    | _, _ => mret object_list_embed
    end;
  match object_list_embed with
  | Some t => mret t
  | None => lift (Raise UnboundLocalError)
  end.

(** Source tables of the columns of the active layout, in the order the
    layouts list them: identifier, object, image (when active), scene (when
    active). *)
Definition layout_columns (self : Chat3D E) (embed_obj : list E)
    (embed_img embed_scene : option (list E)) : list (list E) :=
  [objid_embeds self; embed_obj] ++ option_list embed_img ++ option_list embed_scene.

(** Width of the active layout. *)
Definition layout_width (embed_img embed_scene : option (list E)) : nat :=
  match embed_img, embed_scene with
  | None, None => 2
  | None, Some _ | Some _, None => 3
  | Some _, Some _ => 4
  end.

(** Number of valid objects of a scene. *)
Definition valid_count (scene_mask : list Z) : nat :=
  length (where_eq1 0 scene_mask).

(** Every table of the layout has a row for every slot of the mask. *)
Definition tables_cover (self : Chat3D E) (embed_obj : list E)
    (embed_img embed_scene : option (list E)) (scene_mask : list Z) : Prop :=
  Forall (λ tbl : list E, length scene_mask ≤ length tbl)
    (layout_columns self embed_obj embed_img embed_scene).

End Interleaver.

(** Column [c], [c+1], ... of a block of width [w] written in turn: what the
    successive strided assignments of one layout branch amount to. *)
Fixpoint write_cols {A} (t : list A) (c w : nat) (cols : list (list A))
  : list A :=
  match cols with
  | [] => t
  | col :: cols' => write_cols (strided_write t c w col) (S c) w cols'
  end.

(** ** Text embedding *)

(** The tokenizer is always called on a single text, so its tensors have a
    leading dimension of size 1; a (1, T, ..) tensor is modelled by its only
    row, and [squeeze(0)] and [[0]] on it are the identity. *)

Section TextEmbedding.
Context {E : Type} `{!Row E}.

(** [input_ids >= ori_vocab_size], then [* 1]: the 0/1 integer mask. *)
Definition extended_vocab_mask (self : Chat3D E) (ids : list Z) : list Z :=
  (λ t, if (ori_vocab_size self <=? t)%Z then 1%Z else 0%Z) <$> ids.

Definition get_text_emb (self : Chat3D E) (text : str) : list E :=
  let text_tokens := llama_tokenizer self text in
  let embeds := embed_tokens self <$> input_ids text_tokens in
  if train_emb self then
    let indices := extended_vocab_mask self (input_ids text_tokens) in
    zip_with (λ m e, row_add (row_scale (1 - m) (detach e)) (row_scale m e))
      indices embeds
  else detach embeds.

End TextEmbedding.

(** The same model with the [train_emb] flag set to [b]. *)
Definition with_train_emb {E} (b : bool) (self : Chat3D E) : Chat3D E :=
  {| train_emb := b;
     add_img_token := add_img_token self;
     add_scene_token := add_scene_token self;
     end_sym := end_sym self;
     role := role self;
     embed_tokens := embed_tokens self;
     llama_tokenizer := llama_tokenizer self;
     pad_token_id := pad_token_id self;
     ori_vocab_size := ori_vocab_size self;
     objid_start_idx := objid_start_idx self;
     objid_end_idx := objid_end_idx self;
     p_0_embed := p_0_embed self;
     p_1_embed := p_1_embed self |}.

(** An integer tensor entry promoted to the float type of the tensor it
    multiplies: the integer rounded to nearest, ties to even (0 and 1, the
    values of the mask, are exact). *)
Definition float_of_Z (z : Z) : PrimFloat.float :=
  FloatOps.SF2Prim
    (SpecFloat.binary_normalize FloatOps.prec FloatOps.emax z 0 false).

(** Embedding rows as vectors of floats of dimension [d], with the
    elementwise operations of the hardware: IEEE 754 binary64 stands for
    the float type of the tensor (products by 0 and 1, sums with a zero,
    infinities and NaN behave alike in every IEEE format). *)
Definition F64_Row (d : nat) : Row (list PrimFloat.float) :=
  {| row_zero := replicate d PrimFloat.zero;
     row_add := zip_with PrimFloat.add;
     row_scale := λ m, fmap (PrimFloat.mul (float_of_Z m)) |}.

(** ** The sequence packer (training) *)

(** The label value the loss ignores. *)
Definition IGNORE : Z := (-100)%Z.

(** The cap on the packed length. *)
Definition MAX_LEN : nat := 768.

(** One packed example: embeddings, attention mask, labels. *)
Definition packed (E : Type) : Type := list E * list Z * list Z.

(** The arguments of [forward_stage2] the loop reads, with the per-scene
    tensors the projections have produced from the features;
    [proj_scene_embed] is computed, and read, only under [add_scene_token]. *)
Record batch (E : Type) := {
  proj_object_embed : list (list E);
  proj_object_img_embed : list (list E);
  proj_scene_embed : list (list E);
  scene_mask : list (list Z);
  questions : list str;
  answers : list str;
}.
Arguments proj_object_embed {E} _.
Arguments proj_object_img_embed {E} _.
Arguments proj_scene_embed {E} _.
Arguments scene_mask {E} _.
Arguments questions {E} _.
Arguments answers {E} _.

(** [torch.nn.utils.rnn.pad_sequence(tensor_list, batch_first=True,
    padding_value=v)]: every sequence is extended on the right to the length
    of the longest; an empty list is refused. *)
Definition pad_sequence {A} (tensor_list : list (list A)) (padding_value : A)
  : result (list (list A)) :=
  match tensor_list with
  | [] => Raise RuntimeError
  | _ =>
      let longest := max_list (length <$> tensor_list) in
      Ok ((λ t, t ++ replicate (longest - length t) padding_value) <$> tensor_list)
  end.

(** [padded.shape[1]] of a non-empty rectangular batch. *)
Definition shape1 {A} (padded : list (list A)) : nat :=
  match padded with
  | [] => 0
  | t :: _ => length t
  end.

Definition pad_and_trim {A} (tensor_list : list (list A)) (max_len : nat)
    (padding_value : A) : result (list (list A)) :=
  padded ← pad_sequence tensor_list padding_value;
  if max_len <? shape1 padded
  then Ok (take max_len <$> padded)
  else Ok padded.

Section Packer.
Context {E : Type} `{!Row E}.

(** The accumulators of the loop: the three lists and [max_seq_len]. *)
Definition loop_state : Type := list (list E) * list (list Z) * list (list Z) * nat.

(** The body of [for i, question in enumerate(questions)]. *)
Definition stage2_example (self : Chat3D E) (b : batch E) (i : nat)
    (question : str) : M (packed E) :=
  let prompt := [SPACE] ++ question ++ [SPACE] ++ (role self).2 ++ [COLON; SPACE] in
  let prompt_embed := get_text_emb self prompt in
  embed_obj ← lift (index (proj_object_embed b) i);
  embed_img ←
    (if add_img_token self
     then lift (t ← index (proj_object_img_embed b) i; mret (Some t))
     else mret None);
  embed_scene ←
    (if add_scene_token self
     then lift (t ← index (proj_scene_embed b) i; mret (Some t))
     else mret None);
  mask ← lift (index (scene_mask b) i);
  object_list_embed ← get_object_list_embed self embed_obj embed_img embed_scene mask;
  let wrapped_embed :=
    p_0_embed self ++ object_list_embed ++ p_1_embed self ++ prompt_embed in
  let wrapped_attn := replicate (length wrapped_embed) 1%Z in
  let empty_target := replicate (length wrapped_attn) IGNORE in
  a ← lift (index (answers b) i);
  let answer := a ++ end_sym self in
  let to_regress_token := llama_tokenizer self answer in
  let answer_target :=
    (λ t, if (t =? pad_token_id self)%Z then IGNORE else t)
      <$> input_ids to_regress_token in
  let to_regress_embed := get_text_emb self answer in
  let target := empty_target ++ answer_target in
  let input_embed := wrapped_embed ++ to_regress_embed in
  let attn := wrapped_attn ++ attention_mask to_regress_token in
  mret (input_embed, attn, target).

Fixpoint stage2_loop (self : Chat3D E) (b : batch E) (i : nat)
    (qs : list str) (st : loop_state) : M loop_state :=
  match qs with
  | [] => mret st
  | question :: qs' =>
      let '(input_embed_list, attn_list, target_list, max_seq_len) := st in
      '(input_embed, attn, target) ← stage2_example self b i question;
      stage2_loop self b (S i) qs'
        (input_embed_list ++ [input_embed], attn_list ++ [attn],
         target_list ++ [target], max_seq_len `max` length target)
  end.

(** What [forward_stage2] hands to the language model, and the
    [max_seq_len] it reports. *)
Record lm_inputs := {
  inputs_embeds : list (list E);
  lm_attention_mask : list (list Z);
  labels : list (list Z);
  max_seq_len : nat;
}.

(** [forward_stage2] from the projected embeddings up to the call of the
    language model. *)
Definition forward_stage2 (self : Chat3D E) (b : batch E) : M lm_inputs :=
  '(input_embed_list, attn_list, target_list, max_seq_len) ←
    stage2_loop self b 0 (questions b) ([], [], [], 0);
  let max_seq_len := MAX_LEN `min` max_seq_len in
  input_embeds ← lift (pad_and_trim input_embed_list max_seq_len row_zero);
  attention_mask ← lift (pad_and_trim attn_list max_seq_len 0%Z);
  targets ← lift (pad_and_trim target_list max_seq_len IGNORE);
  mret {| inputs_embeds := input_embeds; lm_attention_mask := attention_mask;
          labels := targets; max_seq_len := max_seq_len |}.

(** The arguments scene [i] of the batch gives to the interleaver, with the
    answer of the example: object, image and scene embeddings (the optional
    ones by the flags of the model), mask, answer. *)
Definition scene_inputs (self : Chat3D E) (b : batch E) (i : nat)
  : option (list E * option (list E) * option (list E) * list Z * str) :=
  embed_obj ← proj_object_embed b !! i;
  embed_img ←
    (if add_img_token self then Some <$> proj_object_img_embed b !! i
     else Some None);
  embed_scene ←
    (if add_scene_token self then Some <$> proj_scene_embed b !! i
     else Some None);
  mask ← scene_mask b !! i;
  a ← answers b !! i;
  Some (embed_obj, embed_img, embed_scene, mask, a).

(** The tokenizer returns as many mask entries as token ids. *)
Definition tokenizer_aligned (self : Chat3D E) : Prop :=
  ∀ text, length (attention_mask (llama_tokenizer self text))
          = length (input_ids (llama_tokenizer self text)).

(** Every question has its scene and its answer, every table of a scene has
    a row per object slot, and the identifier pool is the 200 rows the
    single-object draw ranges over. *)
Definition batch_wf (self : Chat3D E) (b : batch E) : Prop :=
  ∀ i, i < length (questions b) →
    ∃ embed_obj embed_img embed_scene mask a,
      scene_inputs self b i = Some (embed_obj, embed_img, embed_scene, mask, a) ∧
      tables_cover self embed_obj embed_img embed_scene mask ∧
      (valid_count mask = 1 → 200 ≤ length (objid_embeds self)).

(** The labels of the answer [a] of an example: the token ids of the answer
    with its end marker, the pad token masked. *)
Definition answer_labels (self : Chat3D E) (a : str) : list Z :=
  (λ t, if (t =? pad_token_id self)%Z then IGNORE else t)
    <$> input_ids (llama_tokenizer self (a ++ end_sym self)).

(** The text of the prompt of a question: [f" {question} {role[1]}: "]. *)
Definition prompt_of (self : Chat3D E) (question : str) : str :=
  [SPACE] ++ question ++ [SPACE] ++ (role self).2 ++ [COLON; SPACE].

End Packer.
Arguments lm_inputs E : clear implicits.

(** ** Scene coordinate bounds *)

(** Coordinates are floating-point numbers; what the bounds depend on is
    their order and the two infinities. They are modelled as a totally
    ordered carrier [T] extended with [-inf] and [+inf] (no NaN). *)
Class Ordered (T : Type) := {
  leb : T → T → bool;
  leb_total x y : leb x y = true ∨ leb y x = true;
  leb_trans x y z : leb x y = true → leb y z = true → leb x z = true;
  leb_antisym x y : leb x y = true → leb y x = true → x = y;
}.

#[global] Program Instance Z_Ordered : Ordered Z := {| leb := Z.leb |}.
Next Obligation. intros x y. rewrite !Z.leb_le. lia. Qed.
Next Obligation. intros x y z. rewrite !Z.leb_le. lia. Qed.
Next Obligation. intros x y. rewrite !Z.leb_le. lia. Qed.

Inductive float (T : Type) : Type :=
| NegInf
| Fin (x : T)
| PosInf.
Arguments NegInf {T}.
Arguments Fin {T} x.
Arguments PosInf {T}.

Section Bounds.
Context {T : Type} `{!Ordered T}.

Definition fleb (a b : float T) : bool :=
  match a, b with
  | NegInf, _ => true
  | _, PosInf => true
  | Fin x, Fin y => leb x y
  | _, _ => false
  end.

Definition fmin (a b : float T) : float T := if fleb a b then a else b.
Definition fmax (a b : float T) : float T := if fleb a b then b else a.

(** One dimension of [expand]: a size that agrees is kept, a size of 1 is
    repeated, anything else is refused. *)
Definition expand_dim {A} (t : list A) (n : nat) : result (list A) :=
  if length t =? n then Ok t
  else match t with
       | [a] => Ok (replicate n a)
       | _ => Raise RuntimeError
       end.

(** [f] over two lists in step, stopping at the first error. *)
Fixpoint mapM2 {A B C} (f : A → B → result C) (l : list A) (k : list B)
  : result (list C) :=
  match l, k with
  | a :: l', b :: k' => c ← f a b; rest ← mapM2 f l' k'; mret (c :: rest)
  | _, _ => Ok []
  end.

(** [scene_mask.unsqueeze(-1).expand_as(xyz)], dimension by dimension. *)
Definition expand_as (scene_mask : list (list Z)) (xyz : list (list (list (float T))))
  : result (list (list (list Z))) :=
  let unsqueezed := (λ row : list Z, (λ m, [m]) <$> row) <$> scene_mask in
  per_scene ← expand_dim unsqueezed (length xyz);
  mapM2 (λ mrow scene,
           per_object ← expand_dim mrow (length scene);
           mapM2 (λ m obj, expand_dim m (length obj)) per_object scene)
        per_scene xyz.

(** [torch.where(cond > 0, x, torch.full_like(x, fill))], elementwise. *)
Definition where_positive (cond : list (list (list Z)))
    (x : list (list (list (float T)))) (fill : float T)
  : list (list (list (float T))) :=
  zip_with (zip_with (zip_with (λ m v, if (0 <? m)%Z then v else fill))) cond x.

(** [t.min(dim=1)[0]] and [t.max(dim=1)[0]] on one scene: the reduction of
    its rows; a scene without rows is refused. *)
Definition reduce_dim (op : float T → float T → float T)
    (scene : list (list (float T))) : result (list (float T)) :=
  match scene with
  | [] => Raise IndexError
  | row :: rows => Ok (foldl (zip_with op) row rows)
  end.

Definition get_min_max_coord (xyz : list (list (list (float T))))
    (scene_mask : list (list Z))
  : result (list (list (float T)) * list (list (float T))) :=
  scene_mask ← expand_as scene_mask xyz;
  let masked_xyz_min := where_positive scene_mask xyz PosInf in
  let masked_xyz_max := where_positive scene_mask xyz NegInf in
  mins ← mapM (reduce_dim fmin) masked_xyz_min;
  maxs ← mapM (reduce_dim fmax) masked_xyz_max;
  mret (mins, maxs).

(** The rows of one scene with [fill] in every component of the objects
    the mask does not mark. *)
Definition substitute (fill : float T) (mask : list Z)
    (scene : list (list (float T))) : list (list (float T)) :=
  zip_with (λ m obj, if (0 <? m)%Z then obj else (λ _, fill) <$> obj) mask scene.

(** Component [c] of the rows of a scene. *)
Definition column {A} (c : nat) (rows : list (list A)) : list A :=
  omap (λ r, r !! c) rows.

(** Component [c] of the valid objects of one scene. *)
Definition valid_values (mask : list Z) (scene : list (list (float T))) (c : nat)
  : list (float T) :=
  omap (λ '(m, obj), if (0 <? m)%Z then obj !! c else None) (zip mask scene).

(** [x] is the minimum of [vals]; the minimum of nothing is [+inf]. *)
Definition is_min_of (x : float T) (vals : list (float T)) : Prop :=
  Forall (λ v, fleb x v = true) vals ∧ (x ∈ vals ∨ (vals = [] ∧ x = PosInf)).

(** [x] is the maximum of [vals]; the maximum of nothing is [-inf]. *)
Definition is_max_of (x : float T) (vals : list (float T)) : Prop :=
  Forall (λ v, fleb v x = true) vals ∧ (x ∈ vals ∨ (vals = [] ∧ x = NegInf)).

End Bounds.

(** ** Post-processing of the generated text *)

(** [s.startswith(sep)] *)
Fixpoint startswith (s sep : str) {struct sep} : bool :=
  match sep, s with
  | [], _ => true
  | a :: sep', c :: s' => (a =? c)%N && startswith s' sep'
  | _ :: _, [] => false
  end.

(** The scan of [s.split(sep)] for a non-empty [sep]: [skip] characters of a
    matched separator are still to be passed, [cur] is the piece so far. *)
Fixpoint split_go (sep : str) (skip : nat) (cur : str) (s : str) : list str :=
  match s with
  | [] => [cur]
  | c :: s' =>
      match skip with
      | S k => split_go sep k cur s'
      | 0 =>
          if startswith s sep
          then cur :: split_go sep (length sep - 1) [] s'
          else split_go sep 0 (cur ++ [c]) s'
      end
  end.

(** [s.split(sep)] with an explicit separator. *)
Definition split (s sep : str) : result (list str) :=
  match sep with
  | [] => Raise ValueError
  | _ => Ok (split_go sep 0 [] s)
  end.

(** The scan of [s.replace(old, new)] for a non-empty [old]: leftmost,
    non-overlapping occurrences. *)
Fixpoint replace_go (old new : str) (skip : nat) (s : str) : str :=
  match s with
  | [] => []
  | c :: s' =>
      match skip with
      | S k => replace_go old new k s'
      | 0 =>
          if startswith s old
          then new ++ replace_go old new (length old - 1) s'
          else c :: replace_go old new 0 s'
      end
  end.

(** [s.replace(old, new)]; an empty [old] matches before every character
    and at the end. *)
Definition replace (s old new : str) : str :=
  match old with
  | [] => new ++ flat_map (λ c, c :: new) s
  | _ => replace_go old new 0 s
  end.

(** [c.isspace()] by code point. *)
Definition isspace (c : N) : bool :=
  ((9 <=? c) && (c <=? 13) || (28 <=? c) && (c <=? 32)
   || (c =? 133) || (c =? 160) || (c =? 5760)
   || (8192 <=? c) && (c <=? 8202)
   || (c =? 8232) || (c =? 8233) || (c =? 8239) || (c =? 8287)
   || (c =? 12288))%N.

Fixpoint lstrip (s : str) : str :=
  match s with
  | [] => []
  | c :: s' => if isspace c then lstrip s' else s
  end.

Definition rstrip (s : str) : str := reverse (lstrip (reverse s)).

(** [s.strip()] *)
Definition strip (s : str) : str := rstrip (lstrip s).

(** [evaluate], from the decoded text of one example to the text it
    returns. *)
Definition evaluate_output_text {E} (self : Chat3D E) (output_text : str)
  : result str :=
  pieces ← split output_text (end_sym self);
  output_text ← index pieces 0;
  let output_text :=
    strip (replace (replace output_text [SPACE; SPACE] [SPACE])
             [SPACE; PERIOD] [PERIOD]) in
  mret output_text.

(** The text up to the first occurrence of [sep], all of it when [sep] does
    not occur. *)
Fixpoint before_first (sep s : str) : str :=
  match s with
  | [] => []
  | c :: s' => if startswith s sep then [] else c :: before_first sep s'
  end.



(** ** Axis-aligned boxes of the grounding evaluation *)

Local Open Scope R_scope.

Definition point : Type := R * R * R.

(** The (8, 3) array of corners, one row per corner. *)
Definition construct_bbox_corners (center box_size : point) : list point :=
  let '(sx, sy, sz) := box_size in
  let '(cx, cy, cz) := center in
  let x_corners :=
    [sx / 2; sx / 2; -sx / 2; -sx / 2; sx / 2; sx / 2; -sx / 2; -sx / 2] in
  let y_corners :=
    [sy / 2; -sy / 2; -sy / 2; sy / 2; sy / 2; -sy / 2; -sy / 2; sy / 2] in
  let z_corners :=
    [sz / 2; sz / 2; sz / 2; sz / 2; -sz / 2; -sz / 2; -sz / 2; -sz / 2] in
  let x_corners := (λ x, x + cx) <$> x_corners in
  let y_corners := (λ y, y + cy) <$> y_corners in
  let z_corners := (λ z, z + cz) <$> z_corners in
  zip_with (λ xy z, (xy.1, xy.2, z)) (zip x_corners y_corners) z_corners.

(** [corner.min(axis=0)] and [corner.max(axis=0)]: the reduction over the
    rows, refused for an array without rows. *)
Definition reduce_axis0 (op : R → R → R) (corner : list point) : result point :=
  match corner with
  | [] => Raise ValueError
  | p :: rest =>
      Ok (foldl (λ '(ax, ay, az) '(x, y, z), (op ax x, op ay y, op az z)) p rest)
  end.

Definition get_box3d_min_max (corner : list point)
  : result (R * R * R * R * R * R) :=
  min_coord ← reduce_axis0 Rmin corner;
  max_coord ← reduce_axis0 Rmax corner;
  let '(x_min, y_min, z_min) := min_coord in
  let '(x_max, y_max, z_max) := max_coord in
  mret (x_min, x_max, y_min, y_max, z_min, z_max).

Local Close Scope R_scope.

(** ** Concrete instances used by the examples *)

(** A model whose embedding space is one-dimensional and traced by integers:
    the embedding of token [t] is [t]; the tokenizer yields one token per code
    point; 200 identifier tokens follow a vocabulary of 1000. *)
Definition demo_model (img scene : bool) : Chat3D Z :=
  {| train_emb := false;
     add_img_token := img;
     add_scene_token := scene;
     end_sym := [35; 35; 35]%N;
     role := ([72; 117; 109; 97; 110]%N, [65; 73]%N);
     embed_tokens := λ t, t;
     llama_tokenizer := λ s,
       {| input_ids := Z.of_N <$> s; attention_mask := (λ _, 1%Z) <$> s |};
     pad_token_id := 0%Z;
     ori_vocab_size := 1000%Z;
     objid_start_idx := 1000;
     objid_end_idx := 1200;
     p_0_embed := [1; 2]%Z;
     p_1_embed := [3]%Z |}.

(** Two scenes of three slots; the second has no valid object. The
    questions are [a] and [b], the answers [x] and [y]. *)
Definition demo_batch : batch Z :=
  {| proj_object_embed := [[100; 101; 102]; [110; 111; 112]]%Z;
     proj_object_img_embed := [[200; 201; 202]; [210; 211; 212]]%Z;
     proj_scene_embed := [[300; 301; 302]; [310; 311; 312]]%Z;
     scene_mask := [[1; 0; 1]; [0; 0; 0]]%Z;
     questions := [[97]; [98]]%N;
     answers := [[120]; [121]]%N |}.

(** A model with two-dimensional float embeddings: token 97 has an
    infinite first component, every other token [t] the finite row
    [t, 3.0]. The extended vocabulary starts at 1000. *)
Definition demo_float_model : Chat3D (list PrimFloat.float) :=
  {| train_emb := true;
     add_img_token := false;
     add_scene_token := false;
     end_sym := [35; 35; 35]%N;
     role := ([72; 117; 109; 97; 110]%N, [65; 73]%N);
     embed_tokens := λ t,
       if (t =? 97)%Z then [PrimFloat.infinity; float_of_Z 98]
       else [float_of_Z t; float_of_Z 3];
     llama_tokenizer := λ s,
       {| input_ids := Z.of_N <$> s; attention_mask := (λ _, 1%Z) <$> s |};
     pad_token_id := 0%Z;
     ori_vocab_size := 1000%Z;
     objid_start_idx := 1000;
     objid_end_idx := 1200;
     p_0_embed := [];
     p_1_embed := [] |}.

(** ** 3D IoU of the grounding evaluation *)

(** [box3d_iou]; [np.maximum] and [np.minimum] on scalars, the guard [1e-8]
    of the denominator as written. The floats are read as reals: rounding,
    overflow and NaN are left out, so only what does not depend on them is
    stated of this function. *)
Definition box3d_iou (corners1 corners2 : list point) : result R :=
  '(x_min_1, x_max_1, y_min_1, y_max_1, z_min_1, z_max_1) ←
    get_box3d_min_max corners1;
  '(x_min_2, x_max_2, y_min_2, y_max_2, z_min_2, z_max_2) ←
    get_box3d_min_max corners2;
  let xA := Rmax x_min_1 x_min_2 in
  let yA := Rmax y_min_1 y_min_2 in
  let zA := Rmax z_min_1 z_min_2 in
  let xB := Rmin x_max_1 x_max_2 in
  let yB := Rmin y_max_1 y_max_2 in
  let zB := Rmin z_max_1 z_max_2 in
  let inter_vol :=
    (Rmax (xB - xA) 0 * Rmax (yB - yA) 0 * Rmax (zB - zA) 0)%R in
  let box_vol_1 :=
    ((x_max_1 - x_min_1) * (y_max_1 - y_min_1) * (z_max_1 - z_min_1))%R in
  let box_vol_2 :=
    ((x_max_2 - x_min_2) * (y_max_2 - y_min_2) * (z_max_2 - z_min_2))%R in
  let iou := (inter_vol / (box_vol_1 + box_vol_2 - inter_vol + 1e-8))%R in
  mret iou.

(** ** Stopping criterion *)

(** [t[-k:]] on a one-dimensional tensor: the last [k] entries, all of them
    when [k] is 0 or exceeds the length. *)
Definition tail_slice {A} (k : nat) (t : list A) : list A :=
  if k =? 0 then t else drop (length t - k) t.

(** [a == b] on one-dimensional tensors, with broadcasting: equal sizes are
    compared entry by entry, a size of 1 is repeated, other sizes are
    refused. *)
Definition eq_broadcast (a b : list Z) : result (list bool) :=
  if length a =? length b then Ok (zip_with Z.eqb a b)
  else match a, b with
       | [x], _ => Ok (Z.eqb x <$> b)
       | _, [y] => Ok ((λ x, Z.eqb x y) <$> a)
       | _, _ => Raise RuntimeError
       end.

(** [torch.all(t).item()] *)
Definition torch_all (t : list bool) : bool := forallb (λ c, c) t.

(** [StoppingCriteriaSub.__call__(input_ids, scores)] for the stop sequences
    [stops]; [scores] is not read. *)
Fixpoint StoppingCriteriaSub_call (stops : list (list Z))
    (input_ids : list (list Z)) : result bool :=
  match stops with
  | [] => Ok false
  | stop :: stops' =>
      row ← index input_ids 0;
      cmp ← eq_broadcast stop (tail_slice (length stop) row);
      if torch_all cmp then Ok true
      else StoppingCriteriaSub_call stops' input_ids
  end.

(** ** The fixed prefix and suffix of the prompt *)

(** [sub in s] *)
Fixpoint contains (s sub : str) : bool :=
  startswith s sub ||
  match s with
  | [] => false
  | _ :: s' => contains s' sub
  end.

(** The text ["<REPLACE>"]. *)
Definition REPLACE_MARK : str := [60; 82; 69; 80; 76; 65; 67; 69; 62]%N.

(** [prepare_fixed_embed]; [system] and [instruction] are the texts read at
    construction, [tokenizer_special] is the tokenizer called with
    [add_special_tokens=True]. *)
Definition prepare_fixed_embed {E} (self : Chat3D E) (system instruction : str)
    (tokenizer_special : str → encoding) : result (list E * list E) :=
  let prompt :=
    system ++ [SPACE] ++ instruction ++ [SPACE] ++ (role self).1
    ++ [COLON; SPACE] in
  pieces ← split prompt REPLACE_MARK;
  match pieces with
  | [p_0; p_1] =>
      let p_0_token := tokenizer_special p_0 in
      let p_1_token := llama_tokenizer self p_1 in
      let p_0_embed := detach (embed_tokens self <$> input_ids p_0_token) in
      let p_1_embed := detach (embed_tokens self <$> input_ids p_1_token) in
      Ok (p_0_embed, p_1_embed)
  | _ => Raise ValueError
  end.

(** No proper non-empty prefix of [sep] is also a suffix of it. *)
Definition border_free (sep : str) : Prop :=
  ∀ t, t ≠ [] → length t < length sep →
       t `prefix_of` sep → t `suffix_of` sep → False.

(** ** The generation driver *)

Section Evaluate.
Context {E : Type} `{!Row E}.

(** The body of [for i in range(batch_size)] in [evaluate], up to the
    embeddings handed to [llama_model.generate]; the batch dimension of size
    1 that [unsqueeze(0)] adds is left out. *)
Definition evaluate_inputs (self : Chat3D E)
    (proj_object_embed proj_object_img_embed proj_scene_embed : list (list E))
    (scene_mask : list (list Z)) (custom_prompt : list str) (i : nat)
  : M (list E) :=
  cp ← lift (index custom_prompt i);
  let tmp_prompt := [SPACE] ++ cp ++ [SPACE] ++ (role self).2 ++ [COLON; SPACE] in
  let prompt_embed := get_text_emb self tmp_prompt in
  embed_obj ← lift (index proj_object_embed i);
  embed_img ←
    (if add_img_token self
     then lift (t ← index proj_object_img_embed i; mret (Some t))
     else mret None);
  embed_scene ←
    (if add_scene_token self
     then lift (t ← index proj_scene_embed i; mret (Some t))
     else mret None);
  mask ← lift (index scene_mask i);
  object_list_embed ← get_object_list_embed self embed_obj embed_img embed_scene mask;
  let wrapped_embed :=
    p_0_embed self ++ object_list_embed ++ p_1_embed self ++ prompt_embed in
  mret wrapped_embed.

(** The loop of [evaluate] from example [i], [n] examples to go;
    [generate] is [llama_model.generate] followed by [outputs[0]], [decode]
    is [llama_tokenizer.decode]. *)
Fixpoint evaluate_loop (self : Chat3D E) (generate : list E → list Z)
    (decode : list Z → str)
    (proj_object_embed proj_object_img_embed proj_scene_embed : list (list E))
    (scene_mask : list (list Z)) (custom_prompt : list str)
    (i n : nat) (output_texts : list str) : M (list str) :=
  match n with
  | 0 => mret output_texts
  | S n' =>
      wrapped_embed ←
        evaluate_inputs self proj_object_embed proj_object_img_embed
          proj_scene_embed scene_mask custom_prompt i;
      let output_token := generate wrapped_embed in
      let output_text := decode output_token in
      output_text ← lift (evaluate_output_text self output_text);
      evaluate_loop self generate decode proj_object_embed
        proj_object_img_embed proj_scene_embed scene_mask custom_prompt
        (S i) n' (output_texts ++ [output_text])
  end.

(** [evaluate] from the projected embeddings on; [batch_size] is the number
    of scenes of the object embeddings. *)
Definition evaluate (self : Chat3D E) (generate : list E → list Z)
    (decode : list Z → str)
    (proj_object_embed proj_object_img_embed proj_scene_embed : list (list E))
    (scene_mask : list (list Z)) (custom_prompt : list str) : M (list str) :=
  let batch_size := length proj_object_embed in
  evaluate_loop self generate decode proj_object_embed proj_object_img_embed
    proj_scene_embed scene_mask custom_prompt 0 batch_size [].

End Evaluate.

(** * Verification *)

(** ** Basic facts about the primitives *)

Lemma result_bind_Ok {A B} (m : result A) (f : A → result B) a :
  m = Ok a → m ≫= f = f a.
Proof. by intros ->. Qed.

Lemma M_bind_Ok {A B} (m : M A) (f : A → M B) g a g' :
  m g = Ok (a, g') → (m ≫= f) g = f a g'.
Proof. unfold mbind, M_bind. by intros ->. Qed.

Lemma lift_Ok {A} (r : result A) a g : r = Ok a → lift r g = Ok (a, g).
Proof. by intros ->. Qed.

Lemma randbelow_Ok n g :
  n ≠ 0 → ∃ j g', randbelow n g = Ok (j, g') ∧ j < n.
Proof.
  intros Hn. destruct g as [|d g]; simpl.
  - exists 0, []. split; [done | lia].
  - exists (d `mod` n), g. split; [done |]. by apply Nat.mod_upper_bound.
Qed.

Lemma randint_Ok a b g :
  ∃ r g', randint a b g = Ok (r, g') ∧ a ≤ r ≤ a + (b - a).
Proof.
  destruct (randbelow_Ok (b - a + 1) g) as (j & g' & Hj & Hlt); [lia |].
  exists (a + j), g'. split; [| lia].
  unfold randint. by rewrite (M_bind_Ok _ _ _ _ _ Hj).
Qed.

Lemma swap_Permutation {A} (x : list A) i j : swap x i j ≡ₚ x.
Proof.
  unfold swap. destruct (x !! j) as [xj|] eqn:Hj; [| done].
  destruct (x !! i) as [xi|] eqn:Hi; [| done].
  by apply Permutation_insert_swap.
Qed.

Lemma shuffle_from_Ok {A} i (x : list A) g :
  ∃ y g', shuffle_from i x g = Ok (y, g') ∧ y ≡ₚ x.
Proof.
  revert x g. induction i as [|i IH]; intros x g; simpl.
  - by exists x, g.
  - destruct (randbelow_Ok (S (S i)) g) as (j & g1 & Hj & _); [done |].
    destruct (IH (swap x (S i) j) g1) as (y & g' & Hy & Hp).
    exists y, g'. rewrite (M_bind_Ok _ _ _ _ _ Hj). split; [done |].
    by rewrite Hp, swap_Permutation.
Qed.

Lemma shuffle_Ok {A} (x : list A) g :
  ∃ y g', shuffle x g = Ok (y, g') ∧ y ≡ₚ x.
Proof. apply shuffle_from_Ok. Qed.

Lemma index_list_Ok {A} (t : list A) ids rows :
  index_list t ids = Ok rows ↔ Forall2 (λ i a, t !! i = Some a) ids rows.
Proof.
  revert rows. induction ids as [|i ids IH]; intros rows; simpl.
  - split; [intros [= <-]; constructor | by inversion 1].
  - unfold index. destruct (t !! i) as [a|] eqn:Hi; simpl.
    + destruct (index_list t ids) as [rest|e] eqn:Hrest; simpl.
      * split.
        -- intros [= <-]. constructor; [done | by apply IH].
        -- inversion 1 as [|? b ? rows' Hb Hrows]; simplify_eq.
           apply IH in Hrows. by simplify_eq.
      * split; [done |]. inversion 1 as [|? b ? rows' Hb Hrows]; simplify_eq.
        by apply IH in Hrows.
    + split; [done |]. inversion 1; simplify_eq.
Qed.

Lemma index_list_total {A} (t : list A) ids :
  Forall (λ i, i < length t) ids → ∃ rows, index_list t ids = Ok rows.
Proof.
  induction 1 as [|i ids Hi _ [rest IH]]; simpl; [by eexists |].
  apply lookup_lt_is_Some_2 in Hi as [a Ha].
  exists (a :: rest). unfold index. by rewrite Ha, IH.
Qed.

Lemma index_list_length {A} (t : list A) ids rows :
  index_list t ids = Ok rows → length rows = length ids.
Proof. rewrite index_list_Ok. intros H. symmetry. by eapply Forall2_length. Qed.

Lemma index_list_lookup {A} (t : list A) ids rows k i :
  index_list t ids = Ok rows → ids !! k = Some i → rows !! k = t !! i.
Proof.
  rewrite index_list_Ok. intros H Hk.
  destruct (Forall2_lookup_l _ _ _ _ _ H Hk) as (a & Ha & Hti). congruence.
Qed.

Lemma where_eq1_spec mask i j :
  j ∈ where_eq1 i mask ↔ i ≤ j ∧ mask !! (j - i) = Some 1%Z.
Proof.
  revert i. induction mask as [|m mask IH]; intros i; simpl.
  - split; [by intros ?%elem_of_nil | by intros [_ ?]].
  - assert (Hstep : j ∈ where_eq1 (S i) mask ↔ i < j ∧ (m :: mask) !! (j - i) = Some 1%Z).
    { rewrite IH. split.
      - intros [? Hl]. split; [lia |]. by replace (j - i) with (S (j - S i)) by lia.
      - intros [? Hl]. split; [lia |]. by replace (j - i) with (S (j - S i)) in Hl by lia. }
    destruct (Z.eqb_spec m 1) as [-> | Hm].
    + rewrite elem_of_cons, Hstep. split.
      * intros [-> | [? ?]]; [| split; [lia | done]].
        split; [lia |]. by rewrite Nat.sub_diag.
      * intros [Hle Hl]. destruct (decide (j = i)) as [-> | ?]; [by left | right].
        split; [lia | done].
    + rewrite Hstep. split; [intros [? ?]; split; [lia | done] |].
      intros [Hle Hl]. destruct (decide (j = i)) as [-> | ?].
      * rewrite Nat.sub_diag in Hl. simpl in Hl. congruence.
      * split; [lia | done].
Qed.

Lemma where_eq1_bound mask i :
  Forall (λ j, j < i + length mask) (where_eq1 i mask).
Proof.
  apply Forall_forall. intros j [Hle Hl]%where_eq1_spec.
  apply lookup_lt_Some in Hl. lia.
Qed.

(** ** Strided assignment *)

Lemma stride_pos_inj w k j a b :
  a < w → b < w → k * w + a = j * w + b → k = j ∧ a = b.
Proof.
  intros Ha Hb Heq.
  destruct (Nat.lt_trichotomy k j) as [Hlt | [-> | Hgt]]; [| lia |].
  - assert (S k * w ≤ j * w) by (apply Nat.mul_le_mono_r; lia). simpl in *. lia.
  - assert (S j * w ≤ k * w) by (apply Nat.mul_le_mono_r; lia). simpl in *. lia.
Qed.

Lemma strided_write_length {A} (src dst : list A) start step :
  length (strided_write dst start step src) = length dst.
Proof.
  revert dst start. induction src as [|r src IH]; intros dst start; simpl; [done |].
  by rewrite IH, length_insert.
Qed.

Lemma strided_write_miss {A} (src dst : list A) start step p :
  (∀ j, j < length src → p ≠ start + j * step) →
  strided_write dst start step src !! p = dst !! p.
Proof.
  revert dst start. induction src as [|r src IH]; intros dst start Hp; simpl; [done |].
  rewrite IH.
  - apply list_lookup_insert_ne. specialize (Hp 0). simpl in Hp. lia.
  - intros j Hj. specialize (Hp (S j)). simpl in Hp. lia.
Qed.

Lemma strided_write_hit {A} (src dst : list A) start step j r :
  0 < step → src !! j = Some r → start + j * step < length dst →
  strided_write dst start step src !! (start + j * step) = Some r.
Proof.
  intros Hstep. revert dst start j.
  induction src as [|r0 src IH]; intros dst start j Hj Hlen; [done |].
  destruct j as [|j]; simpl in *.
  - simplify_eq. rewrite strided_write_miss by (intros; nia).
    rewrite Nat.add_0_r in *. by apply list_lookup_insert_eq.
  - replace (start + (step + j * step)) with (start + step + j * step) in * by lia.
    apply IH; [done |]. by rewrite length_insert.
Qed.

Lemma slice_len_full n c w : c < w → slice_len (n * w) c w = n.
Proof.
  intros Hc. unfold slice_len. destruct n as [|n].
  - simpl. apply Nat.div_small. lia.
  - symmetry. apply (Nat.div_unique _ _ _ (w - 1 - c)); nia.
Qed.

Lemma setitem_stride_Ok {A} (dst src : list A) n c w :
  length dst = n * w → length src = n → c < w →
  setitem_stride dst c w src = Ok (strided_write dst c w src).
Proof.
  intros Hd Hs Hc. unfold setitem_stride.
  by rewrite Hd, slice_len_full, Hs, Nat.eqb_refl.
Qed.

Lemma write_cols_length {A} (cols : list (list A)) t c w :
  length (write_cols t c w cols) = length t.
Proof.
  revert t c. induction cols as [|col cols IH]; intros t c; simpl; [done |].
  by rewrite IH, strided_write_length.
Qed.

Lemma write_cols_before {A} (cols : list (list A)) (t : list A) c w k c' :
  c' < c → c + length cols ≤ w →
  write_cols t c w cols !! (k * w + c') = t !! (k * w + c').
Proof.
  revert t c. induction cols as [|col cols IH]; intros t c Hc Hw; simpl in *; [done |].
  rewrite IH by lia. apply strided_write_miss. intros j _ Heq.
  assert (k = j ∧ c' = c) as [_ ?]; [| lia].
  apply (stride_pos_inj w); lia.
Qed.

Lemma write_cols_lookup {A} (cols : list (list A)) (t : list A) c w n k j col r :
  length t = n * w → c + length cols ≤ w →
  cols !! j = Some col → col !! k = Some r → k < n →
  write_cols t c w cols !! (k * w + (c + j)) = Some r.
Proof.
  revert t c j. induction cols as [|col0 cols IH]; intros t c j Ht Hw Hj Hk Hn; [done |].
  destruct j as [|j]; simpl in *.
  - simplify_eq. rewrite Nat.add_0_r, write_cols_before by lia.
    replace (k * w + c) with (c + k * w) by lia.
    apply strided_write_hit; [lia | done | nia].
  - replace (c + S j) with (S c + j) by lia.
    eapply IH; eauto; [by rewrite strided_write_length | lia].
Qed.

(** ** The object token interleaver *)

Section InterleaverFacts.
Context {E : Type} `{!Row E}.

Lemma layout_columns_length (self : Chat3D E) embed_obj embed_img embed_scene :
  length (layout_columns self embed_obj embed_img embed_scene)
  = layout_width embed_img embed_scene.
Proof. by destruct embed_img, embed_scene. Qed.

Ltac stride_steps n Hz :=
  repeat (rewrite (setitem_stride_Ok _ _ n)
            by (rewrite ?strided_write_length, ?Hz; (done || lia));
          simpl).

Lemma get_object_list_embed_general (self : Chat3D E) embed_obj embed_img
    embed_scene scene_mask g :
  tables_cover self embed_obj embed_img embed_scene scene_mask →
  (valid_count scene_mask = 1 → 200 ≤ length (objid_embeds self)) →
  ∃ g1 ids g2 cols,
    (valid_count scene_mask ≠ 1 → g1 = g) ∧
    shuffle (where_eq1 0 scene_mask) g1 = Ok (ids, g2) ∧
    ids ≡ₚ where_eq1 0 scene_mask ∧
    Forall2 (λ tbl col, index_list tbl ids = Ok col)
      (layout_columns self embed_obj embed_img embed_scene) cols ∧
    get_object_list_embed self embed_obj embed_img embed_scene scene_mask g
    = Ok (write_cols (zeros (length ids * layout_width embed_img embed_scene))
            0 (layout_width embed_img embed_scene) cols, g2).
Proof.
  intros Hcover Hone. unfold get_object_list_embed.
  set (first := if length (where_eq1 0 scene_mask) =? 1 then _ else _).
  assert (∃ old g1, first g = Ok (old, g1) ∧ (valid_count scene_mask ≠ 1 → g1 = g))
    as (old & g1 & Hfirst & Hg1).
  { subst first. destruct (Nat.eqb_spec (length (where_eq1 0 scene_mask)) 1) as [H1 | H1].
    - destruct (randint_Ok 0 199 g) as (r & g1 & Hr & Hle).
      destruct (lookup_lt_is_Some_2 (objid_embeds self) r) as [a Ha].
      { specialize (Hone H1). lia. }
      destruct (lookup_lt_is_Some_2 embed_obj 0) as [b Hb].
      { apply Forall_cons in Hcover as [_ [Hobj _]%Forall_cons].
        destruct (where_eq1 0 scene_mask) as [|v ?] eqn:Hv; [done |].
        assert (v ∈ where_eq1 0 scene_mask) as [_ Hl%lookup_lt_Some]%where_eq1_spec
          by (rewrite Hv; left). lia. }
      exists (Some [a; b]), g1. split; [| done]. rewrite (M_bind_Ok _ _ _ _ _ Hr).
      unfold index. rewrite Ha. simpl. unfold mbind, M_bind, lift. by rewrite Hb.
    - by exists None, g. }
  rewrite (M_bind_Ok _ _ _ _ _ Hfirst). clear Hfirst first.
  destruct (shuffle_Ok (where_eq1 0 scene_mask) g1) as (ids & g2 & Hsh & Hperm).
  rewrite (M_bind_Ok _ _ _ _ _ Hsh).
  assert (Hcols : ∀ tbl, tbl ∈ layout_columns self embed_obj embed_img embed_scene →
            ∃ col, index_list tbl ids = Ok col ∧ length col = length ids).
  { intros tbl Htbl. destruct (index_list_total tbl ids) as [col Hcol].
    - rewrite Hperm. eapply Forall_impl; [apply where_eq1_bound |].
      intros j Hj. simpl in Hj. eapply Forall_forall in Hcover; [| done]. simpl in Hcover. lia.
    - exists col. split; [done |]. by eapply index_list_length. }
  destruct (Hcols (objid_embeds self)) as (sel & Hsel & Hlsel); [by left |].
  destruct (Hcols embed_obj) as (o & Ho & Hlo); [by right; left |].
  exists g1, ids, g2.
  replace (if negb (train_emb self) then detach (objid_embeds self) else objid_embeds self)
    with (objid_embeds self) by (by destruct (train_emb self)).
  rewrite (M_bind_Ok _ _ _ _ _ (lift_Ok _ _ _ Hsel)). rewrite Hlsel.
  assert (Hz : ∀ w, length (zeros (length ids * w)) = length ids * w)
    by (intros; apply length_replicate).
  destruct embed_img as [embed_img|], embed_scene as [embed_scene|]; simpl.
  - destruct (Hcols embed_img) as (m & Hm & Hlm); [by do 2 right; left |].
    destruct (Hcols embed_scene) as (s & Hs & Hls); [by do 3 right; left |].
    exists [sel; o; m; s]. do 3 (split; [done |]). split; [by repeat constructor |].
    rewrite Ho, Hm, Hs. simpl.
    by stride_steps (length ids) Hz.
  - destruct (Hcols embed_img) as (m & Hm & Hlm); [by do 2 right; left |].
    exists [sel; o; m]. do 3 (split; [done |]). split; [by repeat constructor |].
    rewrite Ho, Hm. simpl.
    by stride_steps (length ids) Hz.
  - destruct (Hcols embed_scene) as (s & Hs & Hls); [by do 2 right; left |].
    exists [sel; o; s]. do 3 (split; [done |]). split; [by repeat constructor |].
    rewrite Ho, Hs. simpl.
    by stride_steps (length ids) Hz.
  - exists [sel; o]. do 3 (split; [done |]). split; [by repeat constructor |].
    rewrite Ho. simpl.
    by stride_steps (length ids) Hz.
Qed.

(** Row [k * w + c] of the block is row [i] of the table of column [c],
    where [i] is the [k]-th index of the order [ids]. *)
Lemma write_cols_layout (tbls cols : list (list E)) ids w k i c tbl :
  Forall2 (λ tbl col, index_list tbl ids = Ok col) tbls cols →
  length tbls = w →
  ids !! k = Some i → tbls !! c = Some tbl →
  is_Some (tbl !! i) ∧
  write_cols (zeros (length ids * w)) 0 w cols !! (k * w + c) = tbl !! i.
Proof.
  intros Hcols Hw Hk Hc.
  destruct (Forall2_lookup_l _ _ _ _ _ Hcols Hc) as (col & Hcol & Hidx).
  pose proof (index_list_lookup _ _ _ _ _ Hidx Hk) as Hrow.
  apply index_list_Ok in Hidx.
  destruct (Forall2_lookup_l _ _ _ _ _ Hidx Hk) as (r & Hr & Hti).
  split; [by eexists |]. rewrite Hti.
  apply (write_cols_lookup cols _ 0 w (length ids) k c col r); try done.
  - apply length_replicate.
  - apply Forall2_length in Hcols. lia.
  - by apply lookup_lt_Some in Hk.
Qed.

End InterleaverFacts.

Section InterleaverTheorems.
Context {E : Type} `{!Row E}.

(** The block has one group of [layout_width] rows per valid object, whatever
    the number of valid objects. *)
Lemma get_object_list_embed_length (self : Chat3D E) embed_obj embed_img
    embed_scene scene_mask g :
  tables_cover self embed_obj embed_img embed_scene scene_mask →
  (valid_count scene_mask = 1 → 200 ≤ length (objid_embeds self)) →
  ∃ block g',
    get_object_list_embed self embed_obj embed_img embed_scene scene_mask g
    = Ok (block, g') ∧
    length block = valid_count scene_mask * layout_width embed_img embed_scene.
Proof.
  intros Hcover Hone.
  destruct (get_object_list_embed_general self embed_obj embed_img embed_scene
              scene_mask g Hcover Hone)
    as (g1 & ids & g2 & cols & _ & _ & Hperm & _ & Hrun).
  eexists _, g2. split; [exact Hrun |].
  rewrite write_cols_length. unfold zeros. rewrite length_replicate.
  unfold valid_count. by rewrite Hperm.
Qed.

(** C2. For a scene with at least two valid objects, the interleaved block
    that [get_object_list_embed] returns has exactly
    [validCount * layoutWidth] rows, the width being 2 without image and
    scene embeddings, 3 with exactly one of them, and 4 with both. *)
Theorem interleaved_block_length (self : Chat3D E) embed_obj embed_img
    embed_scene scene_mask g :
  2 ≤ valid_count scene_mask →
  tables_cover self embed_obj embed_img embed_scene scene_mask →
  ∃ block g',
    get_object_list_embed self embed_obj embed_img embed_scene scene_mask g
    = Ok (block, g') ∧
    length block = valid_count scene_mask * layout_width embed_img embed_scene ∧
    layout_width embed_img embed_scene
    = match embed_img, embed_scene with
      | None, None => 2
      | Some _, Some _ => 4
      | _, _ => 3
      end.
Proof.
  intros Htwo Hcover.
  destruct (get_object_list_embed_length self embed_obj embed_img embed_scene
              scene_mask g Hcover) as (block & g' & Hrun & Hlen); [lia |].
  exists block, g'. do 2 (split; [done |]). by destruct embed_img, embed_scene.
Qed.

(** C3. For a scene with at least two valid objects and each of the four
    layouts, the block lists the valid objects in the shuffled order [ids]:
    the [k]-th object has its identifier embedding at row [k * w], its object
    embedding at row [k * w + 1], its image embedding (when active) at the
    next row and its scene embedding (when active) at the last row of its
    group; one order [ids] serves every column, and every row of the block
    is a row of a valid slot. *)
Theorem interleaved_block_layout (self : Chat3D E) embed_obj embed_img
    embed_scene scene_mask g :
  2 ≤ valid_count scene_mask →
  tables_cover self embed_obj embed_img embed_scene scene_mask →
  let w := layout_width embed_img embed_scene in
  ∃ block ids g',
    get_object_list_embed self embed_obj embed_img embed_scene scene_mask g
    = Ok (block, g') ∧
    shuffle (where_eq1 0 scene_mask) g = Ok (ids, g') ∧
    ids ≡ₚ where_eq1 0 scene_mask ∧
    length block = length ids * w ∧
    (∀ k i, ids !! k = Some i →
       scene_mask !! i = Some 1%Z ∧
       is_Some (block !! (k * w)) ∧
       block !! (k * w) = objid_embeds self !! i ∧
       block !! (k * w + 1) = embed_obj !! i ∧
       (∀ t, embed_img = Some t → block !! (k * w + 2) = t !! i) ∧
       (∀ t, embed_scene = Some t → block !! (k * w + (w - 1)) = t !! i)) ∧
    (∀ r x, block !! r = Some x →
       ∃ k c i tbl,
         r = k * w + c ∧ c < w ∧ ids !! k = Some i ∧
         scene_mask !! i = Some 1%Z ∧
         layout_columns self embed_obj embed_img embed_scene !! c = Some tbl ∧
         tbl !! i = Some x).
Proof.
  intros Htwo Hcover w.
  destruct (get_object_list_embed_general self embed_obj embed_img embed_scene
              scene_mask g Hcover)
    as (g1 & ids & g2 & cols & Hg1 & Hsh & Hperm & Hcols & Hrun); [lia |].
  rewrite Hg1 in Hsh by lia. clear Hg1 g1.
  fold w in Hrun.
  exists (write_cols (zeros (length ids * w)) 0 w cols), ids, g2.
  do 3 (split; [done |]).
  pose proof (layout_columns_length self embed_obj embed_img embed_scene) as Hw.
  fold w in Hw.
  assert (Hvalid : ∀ k i, ids !! k = Some i → scene_mask !! i = Some 1%Z).
  { intros k i Hk. apply list_elem_of_lookup_2 in Hk. rewrite Hperm in Hk.
    apply where_eq1_spec in Hk as [_ Hk]. by rewrite Nat.sub_0_r in Hk. }
  assert (Hrow : ∀ k i c tbl, ids !! k = Some i →
            layout_columns self embed_obj embed_img embed_scene !! c = Some tbl →
            is_Some (tbl !! i) ∧
            write_cols (zeros (length ids * w)) 0 w cols !! (k * w + c) = tbl !! i).
  { intros k i c tbl Hk Hc. by eapply write_cols_layout. }
  split; [by rewrite write_cols_length; apply length_replicate |].
  split.
  - intros k i Hk. split; [by eapply Hvalid |].
    destruct (Hrow k i 0 (objid_embeds self) Hk eq_refl) as [Hs0 H0].
    destruct (Hrow k i 1 embed_obj Hk eq_refl) as [_ H1].
    rewrite Nat.add_0_r in H0. rewrite H0.
    do 3 (split; [done |]). split.
    + intros t ->. by destruct (Hrow k i 2 t Hk eq_refl) as [_ H2].
    + intros t ->. subst w. destruct embed_img as [t'|]; simpl in *.
      * by destruct (Hrow k i 3 t Hk eq_refl) as [_ H3].
      * by destruct (Hrow k i 2 t Hk eq_refl) as [_ H3].
  - intros r x Hr.
    assert (Hw0 : w ≠ 0) by (subst w; destruct embed_img, embed_scene; simpl; lia).
    pose proof (lookup_lt_Some _ _ _ Hr) as Hlt.
    rewrite write_cols_length in Hlt. unfold zeros in Hlt. rewrite length_replicate in Hlt.
    pose proof (Nat.div_mod r w Hw0) as Hdiv.
    pose proof (Nat.mod_upper_bound r w Hw0) as Hmod.
    assert (Hk : r `div` w < length ids).
    { apply Nat.Div0.div_lt_upper_bound. lia. }
    apply lookup_lt_is_Some_2 in Hk as [i Hk].
    destruct (lookup_lt_is_Some_2
                (layout_columns self embed_obj embed_img embed_scene) (r `mod` w))
      as [tbl Hc]; [lia |].
    exists (r `div` w), (r `mod` w), i, tbl.
    destruct (Hrow _ _ _ _ Hk Hc) as [_ Heq].
    replace (r `div` w * w + r `mod` w) with r in * by lia.
    repeat split; try done; [by eapply Hvalid | congruence].
Qed.

(** A scene whose mask marks no valid object: the empty block, for every
    layout and whatever the tables hold, and the generator as it was. *)
Lemma no_valid_object_empty_block (self : Chat3D E) embed_obj embed_img
    embed_scene scene_mask g :
  valid_count scene_mask = 0 →
  get_object_list_embed self embed_obj embed_img embed_scene scene_mask g
  = Ok ([], g).
Proof.
  unfold valid_count. intros Hnil%length_zero_iff_nil.
  unfold get_object_list_embed. rewrite Hnil.
  by destruct embed_img, embed_scene.
Qed.

End InterleaverTheorems.

(** With a single valid object the block still has the rows of the active
    layout, identifier first: the number of rows is the layout width, not 2
    whatever the layout. *)
Lemma single_valid_object_block_length {E} `{!Row E} (self : Chat3D E)
    embed_obj embed_img embed_scene scene_mask g :
  valid_count scene_mask = 1 →
  tables_cover self embed_obj embed_img embed_scene scene_mask →
  200 ≤ length (objid_embeds self) →
  ∃ block g',
    get_object_list_embed self embed_obj embed_img embed_scene scene_mask g
    = Ok (block, g') ∧
    length block = layout_width embed_img embed_scene.
Proof.
  intros Hone Hcover Hpool.
  destruct (get_object_list_embed_length self embed_obj embed_img embed_scene
              scene_mask g Hcover) as (block & g' & Hrun & Hlen); [done |].
  exists block, g'. split; [done |]. rewrite Hlen, Hone. lia.
Qed.

(** C1 (the code departs from the claim). A scene with a single valid object
    (slot 0 of 3) and the image modality active: the two-row block of the
    single-object branch is built and then overwritten by the general
    interleaving, so the block returned has the three rows
    [identifier of slot 0; object 0; image 0], the identifier being the one
    of the slot and not the one drawn at random (draw 5, identifier 1005). *)
Theorem single_valid_object_runs_general_path :
  get_object_list_embed (demo_model true false)
    [100; 101; 102]%Z (Some [200; 201; 202]%Z) None [1; 0; 0]%Z [5; 7; 1; 3]
  = Ok ([1000; 100; 200]%Z, [7; 1; 3]).
Proof. vm_compute. reflexivity. Qed.

Lemma interleaved_block_length_witness :
  ∃ block g',
    get_object_list_embed (demo_model true true)
      [100; 101; 102]%Z (Some [200; 201; 202]%Z) (Some [300; 301; 302]%Z)
      [1; 0; 1]%Z [5; 7; 1; 3]
    = Ok (block, g') ∧
    length block = 2 * 4 ∧
    4 = 4.
Proof.
  apply (interleaved_block_length (demo_model true true)
           [100; 101; 102]%Z (Some [200; 201; 202]%Z) (Some [300; 301; 302]%Z)
           [1; 0; 1]%Z [5; 7; 1; 3]).
  - vm_compute. lia.
  - repeat constructor; vm_compute; lia.
Defined.

Lemma interleaved_block_layout_witness :
  ∃ block ids g',
    get_object_list_embed (demo_model false true)
      [100; 101; 102]%Z None (Some [300; 301; 302]%Z) [1; 0; 1]%Z [4; 7]
    = Ok (block, g') ∧
    shuffle [0; 2] [4; 7] = Ok (ids, g') ∧
    ids ≡ₚ [0; 2] ∧
    length block = length ids * 3 ∧
    (∀ k i, ids !! k = Some i →
       [1; 0; 1]%Z !! i = Some 1%Z ∧
       is_Some (block !! (k * 3)) ∧
       block !! (k * 3) = objid_embeds (demo_model false true) !! i ∧
       block !! (k * 3 + 1) = [100; 101; 102]%Z !! i ∧
       (∀ t : list Z, None = Some t → block !! (k * 3 + 2) = t !! i) ∧
       (∀ t : list Z, Some [300; 301; 302]%Z = Some t →
          block !! (k * 3 + 2) = t !! i)) ∧
    (∀ r x, block !! r = Some x →
       ∃ k c i tbl,
         r = k * 3 + c ∧ c < 3 ∧ ids !! k = Some i ∧
         [1; 0; 1]%Z !! i = Some 1%Z ∧
         layout_columns (demo_model false true) [100; 101; 102]%Z None
           (Some [300; 301; 302]%Z) !! c = Some tbl ∧
         tbl !! i = Some x).
Proof.
  apply (interleaved_block_layout (demo_model false true)
           [100; 101; 102]%Z None (Some [300; 301; 302]%Z) [1; 0; 1]%Z [4; 7]).
  - vm_compute. lia.
  - repeat constructor; vm_compute; lia.
Defined.

(** The shuffled order of the layout example: the draw 4 swaps the two
    valid slots. *)
Example shuffled_layout_example :
  get_object_list_embed (demo_model false true)
    [100; 101; 102]%Z None (Some [300; 301; 302]%Z) [1; 0; 1]%Z [4; 7]
  = Ok ([1002; 102; 302; 1000; 100; 300]%Z, [7]).
Proof. vm_compute. reflexivity. Qed.

(** ** Text embedding *)

(** *** Multiplication by 1.0 and 0.0 and addition of a zero in binary64 *)

Lemma Prim2SF_one :
  FloatOps.Prim2SF PrimFloat.one = SpecFloat.S754_finite false 4503599627370496 (-52).
Proof. vm_compute. reflexivity. Qed.

Lemma float_of_Z_0 : float_of_Z 0 = PrimFloat.zero.
Proof. vm_compute. reflexivity. Qed.

Lemma float_of_Z_1 : float_of_Z 1 = PrimFloat.one.
Proof. vm_compute. reflexivity. Qed.

Lemma digits2_pos_shift (n : nat) (m : positive) :
  Zpos (SpecFloat.digits2_pos (Nat.iter n xO m))
  = (Zpos (SpecFloat.digits2_pos m) + Z.of_nat n)%Z.
Proof.
  induction n as [|n IH]; [simpl; lia |].
  rewrite Nat.iter_succ. cbn [SpecFloat.digits2_pos]. rewrite Pos2Z.inj_succ, IH. lia.
Qed.

Lemma digits2_pos_mul_2p52 (m : positive) :
  Zpos (SpecFloat.digits2_pos (4503599627370496 * m))
  = (Zpos (SpecFloat.digits2_pos m) + 52)%Z.
Proof. apply (digits2_pos_shift 52 m). Qed.

Lemma shr_52_mul_2p52 (m : positive) :
  SpecFloat.iter_pos SpecFloat.shr_1 52
    (SpecFloat.Build_shr_record (Zpos (4503599627370496 * m)) false false)
  = SpecFloat.Build_shr_record (Zpos m) false false.
Proof. reflexivity. Qed.

(** Rounding the product of the mantissa of 1.0 and a canonical mantissa
    gives the mantissa back: [1.0 * x] is exact. *)
Lemma binary_round_aux_one (s : bool) (m : positive) (e : Z) :
  SpecFloat.bounded FloatOps.prec FloatOps.emax m e = true →
  SpecFloat.binary_round_aux FloatOps.prec FloatOps.emax s
    (Zpos (4503599627370496 * m)) (-52 + e) SpecFloat.loc_Exact
  = SpecFloat.S754_finite s m e.
Proof.
  unfold SpecFloat.bounded, SpecFloat.canonical_mantissa.
  intros [Hcan Hle]%andb_true_iff. apply Z.eqb_eq in Hcan.
  unfold SpecFloat.binary_round_aux, SpecFloat.shr_fexp.
  cbn [SpecFloat.Zdigits2]. rewrite digits2_pos_mul_2p52.
  replace (Z.pos (SpecFloat.digits2_pos m) + 52 + (-52 + e))%Z
    with (Z.pos (SpecFloat.digits2_pos m) + e)%Z by lia.
  rewrite Hcan. replace (e - (-52 + e))%Z with 52%Z by lia.
  cbn [SpecFloat.shr SpecFloat.shr_record_of_loc]. rewrite shr_52_mul_2p52.
  cbn [SpecFloat.shr_m SpecFloat.loc_of_shr_record SpecFloat.round_nearest_even
       SpecFloat.Zdigits2].
  replace (-52 + e + 52)%Z with e by lia.
  rewrite Hcan, Z.sub_diag.
  cbn [SpecFloat.shr SpecFloat.shr_m SpecFloat.shr_record_of_loc]. by rewrite Hle.
Qed.

(** A finite float is a signed zero or a signed mantissa with its exponent. *)
Lemma is_finite_SF (x : PrimFloat.float) :
  PrimFloat.is_finite x = true →
  (∃ s, FloatOps.Prim2SF x = SpecFloat.S754_zero s)
  ∨ (∃ s m e, FloatOps.Prim2SF x = SpecFloat.S754_finite s m e).
Proof.
  unfold PrimFloat.is_finite, PrimFloat.is_nan, PrimFloat.is_infinity.
  rewrite !FloatAxioms.eqb_spec, FloatAxioms.abs_spec.
  assert (Hinf : FloatOps.Prim2SF PrimFloat.infinity = SpecFloat.S754_infinity false)
    by (vm_compute; reflexivity).
  rewrite Hinf.
  destruct (FloatOps.Prim2SF x) as [s|s| |s m e].
  - left. by eexists.
  - by destruct s.
  - done.
  - right. by eexists _, _, _.
Qed.

Lemma mul_one_finite (x : PrimFloat.float) :
  PrimFloat.is_finite x = true → PrimFloat.mul PrimFloat.one x = x.
Proof.
  intros Hfin. apply FloatAxioms.Prim2SF_inj.
  rewrite FloatAxioms.mul_spec, Prim2SF_one.
  pose proof (FloatAxioms.Prim2SF_valid x) as Hvalid.
  destruct (is_finite_SF x Hfin) as [[s Hx] | (s & m & e & Hx)];
    rewrite Hx in *; [done |].
  apply (binary_round_aux_one s m e Hvalid).
Qed.

(** [0 * x] for a finite [x] is the zero of the sign of [x], and adding it
    to [x] on either side gives [x] back. *)
Lemma add_mul_zero_finite (x : PrimFloat.float) :
  PrimFloat.is_finite x = true →
  PrimFloat.add x (PrimFloat.mul PrimFloat.zero x) = x
  ∧ PrimFloat.add (PrimFloat.mul PrimFloat.zero x) x = x.
Proof.
  intros Hfin.
  assert (Hz : FloatOps.Prim2SF PrimFloat.zero = SpecFloat.S754_zero false)
    by (vm_compute; reflexivity).
  split; apply FloatAxioms.Prim2SF_inj;
    rewrite FloatAxioms.add_spec, FloatAxioms.mul_spec, Hz;
    destruct (is_finite_SF x Hfin) as [[s Hx] | (s & m & e & Hx)];
    rewrite Hx; by destruct s.
Qed.

(** The blend of one finite value with the mask entry 0 or 1. *)
Lemma blend_finite (b : bool) (x : PrimFloat.float) :
  let m := if b then 1%Z else 0%Z in
  PrimFloat.is_finite x = true →
  PrimFloat.add (PrimFloat.mul (float_of_Z (1 - m)) x)
    (PrimFloat.mul (float_of_Z m) x) = x.
Proof.
  intros m Hfin. destruct (add_mul_zero_finite x Hfin) as [H0 H1].
  destruct b; subst m.
  - change (1 - 1)%Z with 0%Z.
    by rewrite float_of_Z_0, float_of_Z_1, mul_one_finite.
  - change (1 - 0)%Z with 1%Z.
    by rewrite float_of_Z_0, float_of_Z_1, mul_one_finite.
Qed.

Lemma blend_finite_row (d : nat) (b : bool) (e : list PrimFloat.float) :
  let m := if b then 1%Z else 0%Z in
  Forall (λ v, PrimFloat.is_finite v = true) e →
  @row_add _ (F64_Row d) (@row_scale _ (F64_Row d) (1 - m) (detach e))
    (@row_scale _ (F64_Row d) m e) = e.
Proof.
  intros m. unfold detach. cbn [row_add row_scale F64_Row].
  induction 1 as [|x e Hx _ IH]; [done |].
  rewrite !fmap_cons. cbn [zip_with]. rewrite IH. f_equal.
  by apply (blend_finite b).
Qed.

(** C9 (amended). For every input text whose token embeddings hold finite
    values only (no infinity, no NaN), [get_text_emb] returns the same
    values with [train_emb] on and off: the per-token blend
    [(1 - m) * detach(e) + m * e] and the full [detach] both return every
    value as the embedding lookup gave it, bit for bit. *)
Theorem get_text_emb_train_emb_finite_values (d : nat)
    (self : Chat3D (list PrimFloat.float)) (text : str) :
  Forall (λ t, Forall (λ v, PrimFloat.is_finite v = true) (embed_tokens self t))
    (input_ids (llama_tokenizer self text)) →
  @get_text_emb _ (F64_Row d) (with_train_emb true self) text
  = @get_text_emb _ (F64_Row d) (with_train_emb false self) text
  ∧ @get_text_emb _ (F64_Row d) (with_train_emb false self) text
    = embed_tokens self <$> input_ids (llama_tokenizer self text).
Proof.
  intros Hfin. split; [| done].
  unfold get_text_emb, extended_vocab_mask, with_train_emb; cbn [train_emb
    llama_tokenizer embed_tokens ori_vocab_size].
  unfold detach at 2.
  induction Hfin as [|t ids Ht _ IH]; [done |].
  rewrite !fmap_cons. cbn [zip_with]. rewrite IH. f_equal.
  apply (blend_finite_row d (ori_vocab_size self <=? t)%Z _ Ht).
Qed.

Lemma get_text_emb_train_emb_finite_values_witness :
  @get_text_emb _ (F64_Row 2) (with_train_emb true demo_float_model) [98; 1001]%N
  = @get_text_emb _ (F64_Row 2) (with_train_emb false demo_float_model) [98; 1001]%N
  ∧ @get_text_emb _ (F64_Row 2) (with_train_emb false demo_float_model) [98; 1001]%N
    = embed_tokens demo_float_model <$>
        input_ids (llama_tokenizer demo_float_model [98; 1001]%N).
Proof.
  apply (get_text_emb_train_emb_finite_values 2 demo_float_model [98; 1001]%N).
  repeat constructor.
Defined.

(** C9 (the claim fails). Token 97 of the example model has an infinite
    component: with [train_emb] on the blend turns it into NaN
    ([0 * inf] is NaN), with [train_emb] off it stays infinite, so the two
    settings do not return the same values for the text [a]. *)
Lemma get_text_emb_train_emb_infinite_entry :
  @get_text_emb _ (F64_Row 2) (with_train_emb true demo_float_model) [97]%N
  = [[PrimFloat.nan; float_of_Z 98]]
  ∧ @get_text_emb _ (F64_Row 2) (with_train_emb false demo_float_model) [97]%N
    = [[PrimFloat.infinity; float_of_Z 98]]
  ∧ @get_text_emb _ (F64_Row 2) (with_train_emb true demo_float_model) [97]%N
    ≠ @get_text_emb _ (F64_Row 2) (with_train_emb false demo_float_model) [97]%N.
Proof.
  assert (Hon : @get_text_emb _ (F64_Row 2) (with_train_emb true demo_float_model)
                  [97]%N = [[PrimFloat.nan; float_of_Z 98]])
    by (vm_compute; reflexivity).
  assert (Hoff : @get_text_emb _ (F64_Row 2) (with_train_emb false demo_float_model)
                   [97]%N = [[PrimFloat.infinity; float_of_Z 98]])
    by (vm_compute; reflexivity).
  split; [done |]. split; [done |]. rewrite Hon, Hoff. intros H.
  assert (Hnan : PrimFloat.is_nan PrimFloat.nan = PrimFloat.is_nan PrimFloat.infinity)
    by (f_equal; congruence).
  vm_compute in Hnan. discriminate.
Qed.

(** ** Boxes *)

(** C10. For a center [c] and a box size [s] with non-negative components,
    the minima and maxima of the corners built by [construct_bbox_corners]
    are the center minus and plus half the size, axis by axis. *)
Theorem box_corners_min_max (cx cy cz sx sy sz : R) :
  (0 <= sx)%R → (0 <= sy)%R → (0 <= sz)%R →
  get_box3d_min_max (construct_bbox_corners (cx, cy, cz) (sx, sy, sz))
  = Ok (cx - sx / 2, cx + sx / 2, cy - sy / 2, cy + sy / 2,
        cz - sz / 2, cz + sz / 2)%R.
Proof.
  intros Hx Hy Hz. unfold get_box3d_min_max, construct_bbox_corners. simpl.
  repeat match goal with
         | |- context [Rmin ?a ?b] =>
             first [ rewrite (Rmin_left a b) by lra
                   | rewrite (Rmin_right a b) by lra ]
         | |- context [Rmax ?a ?b] =>
             first [ rewrite (Rmax_left a b) by lra
                   | rewrite (Rmax_right a b) by lra ]
         end.
  replace (- sx / 2 + cx)%R with (cx - sx / 2)%R by lra.
  replace (sx / 2 + cx)%R with (cx + sx / 2)%R by lra.
  replace (- sy / 2 + cy)%R with (cy - sy / 2)%R by lra.
  replace (sy / 2 + cy)%R with (cy + sy / 2)%R by lra.
  replace (- sz / 2 + cz)%R with (cz - sz / 2)%R by lra.
  replace (sz / 2 + cz)%R with (cz + sz / 2)%R by lra.
  reflexivity.
Qed.

Lemma box_corners_min_max_witness :
  get_box3d_min_max (construct_bbox_corners (1, 2, 3)%R (2, 4, 6)%R)
  = Ok (1 - 2 / 2, 1 + 2 / 2, 2 - 4 / 2, 2 + 4 / 2, 3 - 6 / 2, 3 + 6 / 2)%R.
Proof. apply (box_corners_min_max 1 2 3 2 4 6); lra. Defined.

(** ** The sequence packer *)

Section PackerFacts.
Context {E : Type} `{!Row E}.

Lemma get_text_emb_length (self : Chat3D E) text :
  length (get_text_emb self text) = length (input_ids (llama_tokenizer self text)).
Proof.
  unfold get_text_emb, extended_vocab_mask, detach.
  destruct (train_emb self).
  - rewrite length_zip_with, !length_fmap. lia.
  - by rewrite length_fmap.
Qed.

Lemma scene_inputs_Some (self : Chat3D E) b i embed_obj embed_img embed_scene
    mask a :
  scene_inputs self b i = Some (embed_obj, embed_img, embed_scene, mask, a) →
  proj_object_embed b !! i = Some embed_obj ∧
  (if add_img_token self
   then ∃ t, proj_object_img_embed b !! i = Some t ∧ embed_img = Some t
   else embed_img = None) ∧
  (if add_scene_token self
   then ∃ t, proj_scene_embed b !! i = Some t ∧ embed_scene = Some t
   else embed_scene = None) ∧
  scene_mask b !! i = Some mask ∧
  answers b !! i = Some a.
Proof.
  unfold scene_inputs. intros Hin.
  destruct (proj_object_embed b !! i) as [eo|]; [| done].
  destruct (scene_mask b !! i) as [mk|]; cycle 1.
  { destruct (add_img_token self), (add_scene_token self),
      (proj_object_img_embed b !! i), (proj_scene_embed b !! i); done. }
  destruct (answers b !! i) as [a'|]; cycle 1.
  { destruct (add_img_token self), (add_scene_token self),
      (proj_object_img_embed b !! i), (proj_scene_embed b !! i); done. }
  destruct (add_img_token self), (add_scene_token self),
    (proj_object_img_embed b !! i), (proj_scene_embed b !! i);
    simplify_eq/=; eauto 10.
Qed.

(** One run of the loop body: the block comes from the interleaver, the
    rest is concatenation. *)
Lemma stage2_example_run (self : Chat3D E) b i question g
    embed_obj embed_img embed_scene mask a :
  scene_inputs self b i = Some (embed_obj, embed_img, embed_scene, mask, a) →
  stage2_example self b i question g
  = match get_object_list_embed self embed_obj embed_img embed_scene mask g with
    | Ok (block, g') =>
        let wrapped :=
          p_0_embed self ++ block ++ p_1_embed self
          ++ get_text_emb self (prompt_of self question) in
        Ok ((wrapped ++ get_text_emb self (a ++ end_sym self),
             replicate (length wrapped) 1%Z
             ++ attention_mask (llama_tokenizer self (a ++ end_sym self)),
             replicate (length (replicate (length wrapped) 1%Z)) IGNORE
             ++ answer_labels self a), g')
    | Raise e => Raise e
    end.
Proof.
  intros (Ho & Hi & Hs & Hm & Ha)%scene_inputs_Some.
  unfold stage2_example, index. rewrite Ho, Hm, Ha.
  rewrite (M_bind_Ok _ _ _ _ _ (lift_Ok _ _ _ eq_refl)).
  erewrite M_bind_Ok; cycle 1.
  { destruct (add_img_token self); [| by rewrite Hi].
    destruct Hi as (t & -> & ->). done. }
  erewrite M_bind_Ok; cycle 1.
  { destruct (add_scene_token self); [| by rewrite Hs].
    destruct Hs as (t & -> & ->). done. }
  rewrite (M_bind_Ok _ _ _ _ _ (lift_Ok _ _ _ eq_refl)).
  unfold mbind at 1, M_bind.
  destruct (get_object_list_embed self embed_obj embed_img embed_scene mask g)
    as [[block g']|e]; [| done].
  by rewrite (M_bind_Ok _ _ _ _ _ (lift_Ok _ _ _ eq_refl)).
Qed.

(** C5. In every example the loop of [forward_stage2] packs, the labels of
    the prefix, object block, suffix and prompt positions are all the ignore
    value -100, and the label of each answer position is the answer's token
    id there, or -100 where that token is the pad token. *)
Theorem packed_example_labels (self : Chat3D E) b i question g
    embed_obj embed_img embed_scene mask a :
  scene_inputs self b i = Some (embed_obj, embed_img, embed_scene, mask, a) →
  tables_cover self embed_obj embed_img embed_scene mask →
  (valid_count mask = 1 → 200 ≤ length (objid_embeds self)) →
  ∃ block input_embed attn target g',
    get_object_list_embed self embed_obj embed_img embed_scene mask g
    = Ok (block, g') ∧
    stage2_example self b i question g = Ok ((input_embed, attn, target), g') ∧
    let prompt_embed := get_text_emb self (prompt_of self question) in
    let answer_ids := input_ids (llama_tokenizer self (a ++ end_sym self)) in
    let before :=
      length (p_0_embed self) + length block + length (p_1_embed self)
      + length prompt_embed in
    input_embed
    = p_0_embed self ++ block ++ p_1_embed self ++ prompt_embed
      ++ get_text_emb self (a ++ end_sym self) ∧
    length target = before + length answer_ids ∧
    (∀ p, p < before → target !! p = Some IGNORE) ∧
    (∀ j t, answer_ids !! j = Some t →
       target !! (before + j)
       = Some (if (t =? pad_token_id self)%Z then IGNORE else t)).
Proof.
  intros Hin Hcover Hone.
  destruct (get_object_list_embed_length self embed_obj embed_img embed_scene
              mask g Hcover Hone) as (block & g' & Hrun & _).
  pose proof (stage2_example_run self b i question g _ _ _ _ _ Hin) as Hex.
  rewrite Hrun in Hex. cbv zeta in Hex.
  eexists block, _, _, _, g'. split; [done |]. split; [exact Hex |].
  cbv zeta. rewrite !length_replicate.
  set (before := length (p_0_embed self) + length block
                 + length (p_1_embed self)
                 + length (get_text_emb self (prompt_of self question))).
  assert (Hb : length (p_0_embed self ++ block ++ p_1_embed self
                       ++ get_text_emb self (prompt_of self question)) = before).
  { rewrite !length_app. subst before. lia. }
  rewrite Hb. split; [by rewrite <- !app_assoc |].
  split; [by rewrite length_app, length_replicate; unfold answer_labels;
            rewrite length_fmap |].
  split.
  - intros p Hp. rewrite lookup_app_l by (by rewrite length_replicate).
    by apply lookup_replicate_2.
  - intros j t Hj. rewrite lookup_app_r by (rewrite length_replicate; lia).
    rewrite length_replicate. replace (before + j - before) with j by lia.
    unfold answer_labels. by rewrite list_lookup_fmap, Hj.
Qed.

Lemma stage2_example_Ok (self : Chat3D E) b i question g
    embed_obj embed_img embed_scene mask a :
  scene_inputs self b i = Some (embed_obj, embed_img, embed_scene, mask, a) →
  tables_cover self embed_obj embed_img embed_scene mask →
  (valid_count mask = 1 → 200 ≤ length (objid_embeds self)) →
  ∃ input_embed attn target g',
    stage2_example self b i question g = Ok ((input_embed, attn, target), g') ∧
    (tokenizer_aligned self →
     length input_embed = length target ∧ length attn = length target).
Proof.
  intros Hin Hcover Hone.
  destruct (get_object_list_embed_length self embed_obj embed_img embed_scene
              mask g Hcover Hone) as (block & g' & Hrun & _).
  pose proof (stage2_example_run self b i question g _ _ _ _ _ Hin) as Hex.
  rewrite Hrun in Hex. cbv zeta in Hex.
  eexists _, _, _, g'. split; [exact Hex |]. intros Htok.
  unfold answer_labels.
  rewrite !length_app, !length_replicate, !length_fmap, get_text_emb_length, Htok.
  by rewrite !get_text_emb_length.
Qed.

Lemma stage2_loop_Ok (self : Chat3D E) b qs :
  ∀ i input_embed_list attn_list target_list m g,
    tokenizer_aligned self →
    (∀ k, k < length qs →
       ∃ embed_obj embed_img embed_scene mask a,
         scene_inputs self b (i + k)
         = Some (embed_obj, embed_img, embed_scene, mask, a) ∧
         tables_cover self embed_obj embed_img embed_scene mask ∧
         (valid_count mask = 1 → 200 ≤ length (objid_embeds self))) →
    ∃ (exs : list (packed E)) g',
      stage2_loop self b i qs (input_embed_list, attn_list, target_list, m) g
      = Ok ((input_embed_list ++ exs.*1.*1, attn_list ++ exs.*1.*2,
             target_list ++ exs.*2, m `max` max_list (length <$> exs.*2)), g') ∧
      length exs = length qs ∧
      Forall (λ ex : packed E,
                length ex.1.1 = length ex.2 ∧ length ex.1.2 = length ex.2) exs.
Proof.
  induction qs as [|q qs IH]; intros i iel al tl m g Htok Hwf.
  - exists [], g. simpl. rewrite !app_nil_r, Nat.max_0_r. by repeat split.
  - destruct (Hwf 0) as (eo & img & sc & mask & a & Hin & Hcover & Hone);
      [simpl; lia |].
    rewrite Nat.add_0_r in Hin.
    destruct (stage2_example_Ok self b i q g _ _ _ _ _ Hin Hcover Hone)
      as (ie & at' & tg & g1 & Hex & Hlen).
    destruct (IH (S i) (iel ++ [ie]) (al ++ [at']) (tl ++ [tg])
                (m `max` length tg) g1 Htok) as (exs & g' & Hloop & Hn & Hall).
    { intros k Hk. replace (S i + k) with (i + S k) by lia.
      apply Hwf. simpl. lia. }
    exists ((ie, at', tg) :: exs), g'. split; [| split].
    + cbn [stage2_loop]. rewrite (M_bind_Ok _ _ _ _ _ Hex). rewrite Hloop.
      rewrite !fmap_cons. cbn [fst snd max_list max_list_with id].
      by rewrite <- !app_assoc, Nat.max_assoc.
    + simpl. by rewrite Hn.
    + constructor; [by apply Hlen | done].
Qed.

End PackerFacts.

Lemma pad_and_trim_Ok {A} (tensor_list : list (list A)) (max_len : nat) (pad : A) :
  tensor_list ≠ [] →
  max_len = MAX_LEN `min` max_list (length <$> tensor_list) →
  pad_and_trim tensor_list max_len pad
  = Ok ((λ t, take max_len t ++ replicate (max_len - length t) pad)
          <$> tensor_list).
Proof.
  intros Hne Hmax. unfold pad_and_trim, pad_sequence.
  set (longest := max_list (length <$> tensor_list)) in *.
  assert (Hle : Forall (λ t, length t ≤ longest) tensor_list).
  { apply Forall_forall. intros t Ht. apply max_list_elem_of_le.
    apply list_elem_of_fmap. by exists t. }
  destruct tensor_list as [|t0 rest] eqn:Hl; [done |]. rewrite <- Hl in *.
  cbn [mbind result_bind].
  assert (Hshape : shape1 ((λ t, t ++ replicate (longest - length t) pad)
                             <$> tensor_list) = longest).
  { rewrite Hl. simpl. rewrite length_app, length_replicate.
    rewrite Hl in Hle. apply Forall_cons in Hle as [? _]. lia. }
  rewrite Hshape. destruct (Nat.ltb_spec max_len longest) as [Hlt | Hge].
  - f_equal. rewrite <- list_fmap_compose. apply list_fmap_ext.
    intros _ t _. simpl. rewrite take_app, take_replicate. do 2 f_equal.
    clear -Hlt. lia.
  - f_equal. apply Forall_fmap_ext. eapply Forall_impl; [exact Hle |].
    intros t Ht. cbv beta in *. assert (max_len = longest) as ->.
    { pose proof (Nat.le_min_r MAX_LEN longest). clearbody longest. lia. }
    by rewrite take_ge.
Qed.

Section PackerTheorems.
Context {E : Type} `{!Row E}.

Lemma packed_lengths_agree (exs : list (packed E)) :
  Forall (λ ex : packed E,
            length ex.1.1 = length ex.2 ∧ length ex.1.2 = length ex.2) exs →
  length <$> exs.*1.*1 = length <$> exs.*2 ∧
  length <$> exs.*1.*2 = length <$> exs.*2.
Proof.
  induction 1 as [|[[ie at'] tg] exs [H1 H2] _ [IH1 IH2]]; [done |].
  rewrite !fmap_cons. simpl in *. by rewrite H1, H2, IH1, IH2.
Qed.

(** C4. For a batch of at least one example, [forward_stage2] takes
    [max_seq_len = min(768, longest packed length)]; the embeddings, the
    attention mask and the labels it hands to the language model all have
    one row per example and [max_seq_len] positions per row; each row is
    the first [max_seq_len] positions of its packed example (truncation on
    the right only), followed on the right by the padding: zero rows for
    the embeddings, 0 for the mask, -100 for the labels. *)
Theorem forward_stage2_padding (self : Chat3D E) (b : batch E) g :
  tokenizer_aligned self →
  questions b ≠ [] →
  batch_wf self b →
  ∃ (exs : list (packed E)) out g',
    stage2_loop self b 0 (questions b) ([], [], [], 0) g
    = Ok ((exs.*1.*1, exs.*1.*2, exs.*2, max_list (length <$> exs.*2)), g') ∧
    forward_stage2 self b g = Ok (out, g') ∧
    length exs = length (questions b) ∧
    let M := MAX_LEN `min` max_list (length <$> exs.*2) in
    max_seq_len out = M ∧
    (length (inputs_embeds out) = length exs ∧
     length (lm_attention_mask out) = length exs ∧
     length (labels out) = length exs) ∧
    (Forall (λ r, length r = M) (inputs_embeds out) ∧
     Forall (λ r, length r = M) (lm_attention_mask out) ∧
     Forall (λ r, length r = M) (labels out)) ∧
    (∀ i input_embed attn target,
       exs !! i = Some (input_embed, attn, target) →
       length input_embed = length target ∧ length attn = length target ∧
       inputs_embeds out !! i
       = Some (take M input_embed ++ replicate (M - length input_embed) row_zero) ∧
       lm_attention_mask out !! i
       = Some (take M attn ++ replicate (M - length attn) 0%Z) ∧
       labels out !! i
       = Some (take M target ++ replicate (M - length target) IGNORE)).
Proof.
  intros Htok Hne Hwf.
  destruct (stage2_loop_Ok self b (questions b) 0 [] [] [] 0 g Htok)
    as (exs & g' & Hloop & Hn & Hall); [by intros k Hk; apply Hwf |].
  rewrite !app_nil_l, Nat.max_0_l in Hloop.
  destruct (packed_lengths_agree exs Hall) as [Hie Hat].
  set (M := MAX_LEN `min` max_list (length <$> exs.*2)).
  assert (Hexs : exs ≠ []).
  { intros ->. destruct (questions b); done. }
  assert (Hpad : ∀ {A} (f : packed E → list A) (pad : A),
            length <$> (f <$> exs) = length <$> exs.*2 →
            pad_and_trim (f <$> exs) M pad
            = Ok ((λ t, take M t ++ replicate (M - length t) pad) <$> (f <$> exs))).
  { intros A f pad Hf. apply pad_and_trim_Ok.
    - by destruct exs.
    - by rewrite Hf. }
  exists exs,
    {| inputs_embeds :=
         (λ t, take M t ++ replicate (M - length t) row_zero) <$> exs.*1.*1;
       lm_attention_mask :=
         (λ t, take M t ++ replicate (M - length t) 0%Z) <$> exs.*1.*2;
       labels := (λ t, take M t ++ replicate (M - length t) IGNORE) <$> exs.*2;
       max_seq_len := M |}, g'.
  split; [done |]. split.
  { unfold forward_stage2. rewrite (M_bind_Ok _ _ _ _ _ Hloop). cbv beta iota.
    fold M. rewrite <- !list_fmap_compose.
    rewrite !Hpad by (by rewrite ?list_fmap_compose).
    by rewrite <- !list_fmap_compose. }
  split; [done |]. cbn [max_seq_len inputs_embeds lm_attention_mask labels].
  assert (Hrow : ∀ {A} (t : list A) pad,
            length (take M t ++ replicate (M - length t) pad) = M).
  { intros A t pad. rewrite length_app, length_take, length_replicate. lia. }
  split; [done |]. split; [by rewrite !length_fmap |]. split.
  { repeat split; apply Forall_fmap, Forall_forall; intros t _; apply Hrow. }
  intros i ie at' tg Hi.
  pose proof (proj1 (Forall_forall _ _) Hall _ (list_elem_of_lookup_2 _ _ _ Hi))
    as [H1 H2]. simpl in H1, H2.
  do 2 (split; [done |]).
  rewrite !list_lookup_fmap. unfold packed in *. by rewrite Hi.
Qed.

(** C7, as the code has it. For a scene whose mask marks no valid object
    nothing is raised: [get_object_list_embed] returns the empty block, for
    every layout, and the loop of [forward_stage2] packs the example around
    it: prefix, suffix, prompt and answer, with no object row. *)
Theorem no_valid_object_example_packed (self : Chat3D E) b i question g
    embed_obj embed_img embed_scene mask a :
  scene_inputs self b i = Some (embed_obj, embed_img, embed_scene, mask, a) →
  valid_count mask = 0 →
  get_object_list_embed self embed_obj embed_img embed_scene mask g = Ok ([], g) ∧
  ∃ attn target,
    stage2_example self b i question g
    = Ok ((p_0_embed self ++ p_1_embed self
           ++ get_text_emb self (prompt_of self question)
           ++ get_text_emb self (a ++ end_sym self), attn, target), g).
Proof.
  intros Hin Hzero.
  pose proof (no_valid_object_empty_block self embed_obj embed_img embed_scene
                mask g Hzero) as Hrun.
  split; [done |].
  pose proof (stage2_example_run self b i question g _ _ _ _ _ Hin) as Hex.
  rewrite Hrun in Hex. cbv zeta in Hex. rewrite app_nil_l in Hex.
  eexists _, _. rewrite Hex. by rewrite <- !app_assoc.
Qed.

End PackerTheorems.

Lemma demo_tokenizer_aligned img scene : tokenizer_aligned (demo_model img scene).
Proof. intros text. simpl. by rewrite !length_fmap. Qed.

Lemma demo_batch_wf : batch_wf (demo_model true false) demo_batch.
Proof.
  intros i Hi. destruct i as [|[|i]]; [| | simpl in Hi; lia].
  - exists [100; 101; 102]%Z, (Some [200; 201; 202]%Z), None, [1; 0; 1]%Z, [120%N].
    split; [reflexivity |]. split; [repeat constructor; vm_compute; lia |].
    intros _. vm_compute. lia.
  - exists [110; 111; 112]%Z, (Some [210; 211; 212]%Z), None, [0; 0; 0]%Z, [121%N].
    split; [reflexivity |]. split; [repeat constructor; vm_compute; lia |].
    intros _. vm_compute. lia.
Qed.

Lemma forward_stage2_padding_witness :
  ∃ (exs : list (packed Z)) out g',
    stage2_loop (demo_model true false) demo_batch 0 (questions demo_batch)
      ([], [], [], 0) [5; 7]
    = Ok ((exs.*1.*1, exs.*1.*2, exs.*2, max_list (length <$> exs.*2)), g') ∧
    forward_stage2 (demo_model true false) demo_batch [5; 7] = Ok (out, g') ∧
    length exs = length (questions demo_batch) ∧
    let M := MAX_LEN `min` max_list (length <$> exs.*2) in
    max_seq_len out = M ∧
    (length (inputs_embeds out) = length exs ∧
     length (lm_attention_mask out) = length exs ∧
     length (labels out) = length exs) ∧
    (Forall (λ r, length r = M) (inputs_embeds out) ∧
     Forall (λ r, length r = M) (lm_attention_mask out) ∧
     Forall (λ r, length r = M) (labels out)) ∧
    (∀ i input_embed attn target,
       exs !! i = Some (input_embed, attn, target) →
       length input_embed = length target ∧ length attn = length target ∧
       inputs_embeds out !! i
       = Some (take M input_embed ++ replicate (M - length input_embed) row_zero) ∧
       lm_attention_mask out !! i
       = Some (take M attn ++ replicate (M - length attn) 0%Z) ∧
       labels out !! i
       = Some (take M target ++ replicate (M - length target) IGNORE)).
Proof.
  apply (forward_stage2_padding (demo_model true false) demo_batch [5; 7]).
  - apply demo_tokenizer_aligned.
  - discriminate.
  - apply demo_batch_wf.
Defined.

(** The batch of the example as the language model receives it. *)
Example forward_stage2_demo :
  forward_stage2 (demo_model true false) demo_batch [5; 7]
  = Ok ({| inputs_embeds :=
             [[1; 2; 1000; 100; 200; 1002; 102; 202; 3;
               32; 97; 32; 65; 73; 58; 32; 120; 35; 35; 35];
              [1; 2; 3; 32; 98; 32; 65; 73; 58; 32; 121; 35; 35; 35;
               0; 0; 0; 0; 0; 0]]%Z;
           lm_attention_mask :=
             [[1; 1; 1; 1; 1; 1; 1; 1; 1; 1; 1; 1; 1; 1; 1; 1; 1; 1; 1; 1];
              [1; 1; 1; 1; 1; 1; 1; 1; 1; 1; 1; 1; 1; 1; 0; 0; 0; 0; 0; 0]]%Z;
           labels :=
             [[-100; -100; -100; -100; -100; -100; -100; -100; -100; -100;
               -100; -100; -100; -100; -100; -100; 120; 35; 35; 35];
              [-100; -100; -100; -100; -100; -100; -100; -100; -100; -100;
               121; 35; 35; 35; -100; -100; -100; -100; -100; -100]]%Z;
           max_seq_len := 20 |}, [7]).
Proof. vm_compute. reflexivity. Qed.

Lemma packed_example_labels_witness :
  ∃ block input_embed attn target g',
    get_object_list_embed (demo_model true false) [100; 101; 102]%Z
      (Some [200; 201; 202]%Z) None [1; 0; 1]%Z [5; 7]
    = Ok (block, g') ∧
    stage2_example (demo_model true false) demo_batch 0 [97%N] [5; 7]
    = Ok ((input_embed, attn, target), g') ∧
    let self := demo_model true false in
    let prompt_embed := get_text_emb self (prompt_of self [97%N]) in
    let answer_ids := input_ids (llama_tokenizer self ([120%N] ++ end_sym self)) in
    let before :=
      length (p_0_embed self) + length block + length (p_1_embed self)
      + length prompt_embed in
    input_embed
    = p_0_embed self ++ block ++ p_1_embed self ++ prompt_embed
      ++ get_text_emb self ([120%N] ++ end_sym self) ∧
    length target = before + length answer_ids ∧
    (∀ p, p < before → target !! p = Some IGNORE) ∧
    (∀ j t, answer_ids !! j = Some t →
       target !! (before + j)
       = Some (if (t =? pad_token_id self)%Z then IGNORE else t)).
Proof.
  apply (packed_example_labels (demo_model true false) demo_batch 0 [97%N] [5; 7]
           [100; 101; 102]%Z (Some [200; 201; 202]%Z) None [1; 0; 1]%Z [120%N]).
  - reflexivity.
  - repeat constructor; vm_compute; lia.
  - intros _. vm_compute. lia.
Defined.

Lemma no_valid_object_example_packed_witness :
  get_object_list_embed (demo_model true false) [110; 111; 112]%Z
    (Some [210; 211; 212]%Z) None [0; 0; 0]%Z [7] = Ok ([], [7]) ∧
  ∃ attn target,
    stage2_example (demo_model true false) demo_batch 1 [98%N] [7]
    = Ok ((p_0_embed (demo_model true false) ++ p_1_embed (demo_model true false)
           ++ get_text_emb (demo_model true false)
                (prompt_of (demo_model true false) [98%N])
           ++ get_text_emb (demo_model true false)
                ([121%N] ++ end_sym (demo_model true false)), attn, target), [7]).
Proof.
  apply (no_valid_object_example_packed (demo_model true false) demo_batch 1
           [98%N] [7] [110; 111; 112]%Z (Some [210; 211; 212]%Z) None
           [0; 0; 0]%Z [121%N]).
  - reflexivity.
  - reflexivity.
Defined.

(** C7 (the claim fails). The second scene of the example batch has no valid
    object: the interleaver returns the empty block instead of raising, and
    [forward_stage2] returns the batch, its second example packed without
    any object row. *)
Lemma no_valid_object_no_error :
  get_object_list_embed (demo_model true false) [110; 111; 112]%Z
    (Some [210; 211; 212]%Z) None [0; 0; 0]%Z [7] = Ok ([], [7]) ∧
  ∃ out,
    forward_stage2 (demo_model true false) demo_batch [5; 7] = Ok (out, [7]) ∧
    inputs_embeds out !! 1
    = Some [1; 2; 3; 32; 98; 32; 65; 73; 58; 32; 121; 35; 35; 35;
            0; 0; 0; 0; 0; 0]%Z.
Proof.
  split; [reflexivity |]. eexists. split; [vm_compute; reflexivity |]. reflexivity.
Qed.

(** ** Post-processing of the generated text *)

Lemma startswith_prefix (s sep : str) :
  startswith s sep = true ↔ sep `prefix_of` s.
Proof.
  revert s. induction sep as [|a sep IH]; intros s; simpl.
  - split; [intros _; apply prefix_nil | done].
  - destruct s as [|c s].
    + split; [done | by intros ?%prefix_nil_not].
    + rewrite andb_true_iff, N.eqb_eq, IH. split.
      * intros [-> ?]. by apply prefix_cons.
      * intros Hp. split; [by eapply prefix_cons_inv_1 | by eapply prefix_cons_inv_2].
Qed.

Lemma split_go_head (sep cur s : str) :
  index (split_go sep 0 cur s) 0 = Ok (cur ++ before_first sep s).
Proof.
  revert cur. induction s as [|c s IH]; intros cur.
  - simpl. by rewrite app_nil_r.
  - cbn [split_go before_first]. destruct (startswith (c :: s) sep).
    + by rewrite app_nil_r.
    + rewrite IH. by rewrite <- app_assoc.
Qed.





Lemma lstrip_spec (s : str) :
  ∃ l, s = l ++ lstrip s ∧ Forall (λ c, isspace c = true) l ∧
       ∀ c, head (lstrip s) = Some c → isspace c = false.
Proof.
  induction s as [|c s (l & Hl & Hsp & Hhd)]; [by exists [] |].
  simpl. destruct (isspace c) eqn:Hc.
  - exists (c :: l). split; [by rewrite Hl at 1 |]. split; [by constructor | done].
  - exists []. split; [done |]. split; [done |]. by intros ? [= <-].
Qed.

(** [strip] removes whitespace at both ends and nothing else. *)
Lemma strip_spec (s : str) :
  ∃ l r, s = l ++ strip s ++ r ∧
         Forall (λ c, isspace c = true) l ∧ Forall (λ c, isspace c = true) r ∧
         (∀ c, head (strip s) = Some c → isspace c = false) ∧
         (∀ c, last (strip s) = Some c → isspace c = false).
Proof.
  destruct (lstrip_spec s) as (l & Hl & Hsl & Hhd).
  destruct (lstrip_spec (reverse (lstrip s))) as (r & Hr & Hsr & Hlast).
  unfold strip, rstrip.
  assert (Hs : lstrip s = reverse (lstrip (reverse (lstrip s))) ++ reverse r).
  { rewrite <- reverse_app, <- Hr. by rewrite reverse_involutive. }
  exists l, (reverse r). split; [by rewrite <- Hs |].
  split; [done |]. split; [by apply Forall_reverse |].
  split.
  - intros c Hc. apply Hhd. rewrite Hs.
    destruct (reverse (lstrip (reverse (lstrip s)))); [done | by simplify_eq/=].
  - intros c Hc. apply Hlast. by rewrite last_reverse in Hc.
Qed.



(** " a  b . ###c###" gives "a b.". *)
Example evaluate_output_text_demo :
  evaluate_output_text (demo_model true false)
    [32; 97; 32; 32; 98; 32; 46; 32; 35; 35; 35; 99; 35; 35; 35]%N
  = Ok [97; 32; 98; 46]%N.
Proof. vm_compute. reflexivity. Qed.

(** ** Scene coordinate bounds *)

Section Extremum.
Context {A : Type} (le : A → A → Prop) (op : A → A → A) (fill : A).
Hypothesis le_trans' : ∀ a b c, le a b → le b c → le a c.
Hypothesis op_l : ∀ a b, le (op a b) a.
Hypothesis op_r : ∀ a b, le (op a b) b.
Hypothesis op_choice : ∀ a b, op a b = a ∨ op a b = b.
Hypothesis fill_top : ∀ v, le fill v → v = fill.

Lemma foldl_extremum (xs : list A) (x0 : A) :
  Forall (le (foldl op x0 xs)) (x0 :: xs) ∧ foldl op x0 xs ∈ x0 :: xs.
Proof.
  revert x0. induction xs as [|x xs IH]; intros x0; simpl.
  - split; [| by left]. constructor; [| done].
    pose proof (op_l x0 x0) as H. by destruct (op_choice x0 x0) as [-> | ->] in H.
  - destruct (IH (op x0 x)) as [Hall Hin].
    apply Forall_cons in Hall as [Hhd Hall]. split.
    + repeat constructor; [by eapply le_trans' | by eapply le_trans' | done].
    + apply elem_of_cons in Hin as [-> | Hin].
      * destruct (op_choice x0 x) as [-> | ->]; [by left | by right; left].
      * by do 2 right.
Qed.

(** The extremum of a column in which the invalid entries are [fill] is the
    extremum of the valid entries. *)
Lemma extremum_of_valid (col vals : list A) (x : A) :
  Forall (le x) col → x ∈ col →
  (∀ v, v ∈ vals → v ∈ col) →
  (∀ y, y ∈ col → y ∈ vals ∨ y = fill) →
  Forall (le x) vals ∧ (x ∈ vals ∨ (vals = [] ∧ x = fill)).
Proof.
  intros Hall Hin Hsub Hsup. split.
  - apply Forall_forall. intros v Hv. eapply Forall_forall in Hall; eauto.
  - destruct (Hsup x Hin) as [? | ->]; [by left |].
    destruct vals as [|v vals]; [by right |]. left.
    assert (v ∈ col) as Hv by (apply Hsub; left).
    eapply Forall_forall in Hall; [| exact Hv].
    apply fill_top in Hall as ->. left.
Qed.

End Extremum.

Section BoundsFacts.
Context {T : Type} `{!Ordered T}.

Lemma fleb_total (a b : float T) : fleb a b = true ∨ fleb b a = true.
Proof. destruct a, b; simpl; auto. apply leb_total. Qed.

Lemma fleb_trans (a b c : float T) :
  fleb a b = true → fleb b c = true → fleb a c = true.
Proof. destruct a, b, c; simpl; try done. apply leb_trans. Qed.

Lemma fmin_l (a b : float T) : fleb (fmin a b) a = true.
Proof.
  unfold fmin. destruct (fleb a b) eqn:Hab.
  - by destruct (fleb_total a a).
  - by destruct (fleb_total a b) as [Hc | Hc]; [congruence |].
Qed.

Lemma fmin_r (a b : float T) : fleb (fmin a b) b = true.
Proof.
  unfold fmin. destruct (fleb a b) eqn:Hab; [done |].
  by destruct (fleb_total b b).
Qed.

Lemma fmax_l (a b : float T) : fleb a (fmax a b) = true.
Proof.
  unfold fmax. destruct (fleb a b) eqn:Hab; [done |].
  by destruct (fleb_total a a).
Qed.

Lemma fmax_r (a b : float T) : fleb b (fmax a b) = true.
Proof.
  unfold fmax. destruct (fleb a b) eqn:Hab.
  - by destruct (fleb_total b b).
  - by destruct (fleb_total a b) as [Hc | Hc]; [congruence |].
Qed.

Lemma fmin_choice (a b : float T) : fmin a b = a ∨ fmin a b = b.
Proof. unfold fmin. destruct (fleb a b); auto. Qed.

Lemma fmax_choice (a b : float T) : fmax a b = a ∨ fmax a b = b.
Proof. unfold fmax. destruct (fleb a b); auto. Qed.

Lemma PosInf_top (v : float T) : fleb PosInf v = true → v = PosInf.
Proof. by destruct v. Qed.

Lemma NegInf_bottom (v : float T) : fleb v NegInf = true → v = NegInf.
Proof. by destruct v. Qed.

Lemma expand_dim_same {A} (t : list A) n : length t = n → expand_dim t n = Ok t.
Proof. intros <-. unfold expand_dim. by rewrite Nat.eqb_refl. Qed.

Lemma expand_dim_single {A} (a : A) n : expand_dim [a] n = Ok (replicate n a).
Proof.
  unfold expand_dim. simpl. destruct n as [|[|n]]; done.
Qed.

Lemma mapM2_Ok {A A' B C} (h : A' → A) (f : A → B → result C) (g : A' → B → C)
    (l : list A') (k : list B) :
  Forall2 (λ a b, f (h a) b = Ok (g a b)) l k →
  mapM2 f (h <$> l) k = Ok (zip_with g l k).
Proof.
  induction 1 as [|a b l k Hab _ IH]; [done |].
  rewrite fmap_cons. simpl. by rewrite Hab, IH.
Qed.

Lemma mapM_Ok {A B} (f : A → result B) (l : list A) (k : list B) :
  Forall2 (λ a b, f a = Ok b) l k → mapM f l = Ok k.
Proof.
  induction 1 as [|a b l k Hab _ IH]; [done |]. simpl. by rewrite Hab, IH.
Qed.

Lemma zip_with_zip_with_same {A B C D} (f : C → B → D) (g : A → B → C)
    (l : list A) (k : list B) :
  zip_with f (zip_with g l k) k = zip_with (λ a b, f (g a b) b) l k.
Proof.
  revert k. induction l as [|a l IH]; intros [|b k]; simpl; [done.. |].
  by rewrite IH.
Qed.

Lemma expand_as_Ok (scene_mask : list (list Z)) (xyz : list (list (list (float T)))) :
  Forall2 (λ m scene, length m = length scene) scene_mask xyz →
  expand_as scene_mask xyz
  = Ok (zip_with (λ m scene,
                    zip_with (λ mk (obj : list (float T)), replicate (length obj) mk)
                      m scene) scene_mask xyz).
Proof.
  intros Hshape. unfold expand_as.
  rewrite expand_dim_same
    by (rewrite length_fmap; by eapply Forall2_length).
  cbn [mbind result_bind].
  apply (mapM2_Ok (λ row : list Z, (λ m, [m]) <$> row)).
  eapply Forall2_impl; [exact Hshape |]. intros m scene Hlen. cbv beta.
  rewrite expand_dim_same by (by rewrite length_fmap).
  cbn [mbind result_bind]. apply (mapM2_Ok (λ m : Z, [m])).
  apply Forall2_same_length_lookup_2; [done |].
  intros i mk obj _ _. apply expand_dim_single.
Qed.

Lemma where_positive_substitute (scene_mask : list (list Z))
    (xyz : list (list (list (float T)))) (fill : float T) :
  where_positive
    (zip_with (λ m scene,
                 zip_with (λ mk (obj : list (float T)), replicate (length obj) mk)
                   m scene) scene_mask xyz) xyz fill
  = zip_with (substitute fill) scene_mask xyz.
Proof.
  unfold where_positive. rewrite zip_with_zip_with_same.
  apply zip_with_ext; [| done..]. intros m scene.
  rewrite zip_with_zip_with_same. unfold substitute.
  apply zip_with_ext; [| done..]. intros mk obj.
  induction obj as [|v obj IH]; simpl; [by destruct (0 <? mk)%Z |].
  rewrite IH. by destruct (0 <? mk)%Z.
Qed.

Lemma foldl_zip_with_length (op : float T → float T → float T) C rows row :
  Forall (λ r : list (float T), length r = C) rows → length row = C →
  length (foldl (zip_with op) row rows) = C.
Proof.
  intros Hrows. revert row. induction Hrows as [|r rows Hr _ IH]; intros row Hrow.
  - done.
  - simpl. apply IH. rewrite length_zip_with. lia.
Qed.

Lemma foldl_zip_with_lookup (op : float T → float T → float T) C rows row c x0 :
  Forall (λ r : list (float T), length r = C) rows → length row = C →
  row !! c = Some x0 →
  foldl (zip_with op) row rows !! c = Some (foldl op x0 (column c rows)).
Proof.
  intros Hrows. revert row x0.
  induction Hrows as [|r rows Hr _ IH]; intros row x0 Hrow Hc; [done |].
  pose proof (lookup_lt_Some _ _ _ Hc) as Hlt.
  destruct (lookup_lt_is_Some_2 r c) as [x Hx]; [lia |].
  simpl. unfold column. simpl. rewrite Hx. simpl.
  apply IH; [rewrite length_zip_with; lia |].
  by rewrite lookup_zip_with, Hc; simpl; rewrite Hx.
Qed.

Lemma substitute_rows (fill : float T) C mask scene :
  Forall (λ obj : list (float T), length obj = C) scene →
  Forall (λ r : list (float T), length r = C) (substitute fill mask scene).
Proof.
  intros Hscene. revert mask.
  induction Hscene as [|obj scene Hobj _ IH]; intros [|m mask]; try done.
  unfold substitute. simpl. constructor; [| apply IH].
  destruct (0 <? m)%Z; [done | by rewrite length_fmap].
Qed.

Lemma valid_values_column (fill : float T) mask scene c :
  (∀ v, v ∈ valid_values mask scene c → v ∈ column c (substitute fill mask scene)) ∧
  (∀ y, y ∈ column c (substitute fill mask scene) →
        y ∈ valid_values mask scene c ∨ y = fill).
Proof.
  revert scene. induction mask as [|m mask IH]; intros [|obj scene];
    try by (split; intros ? ?%elem_of_nil).
  destruct (IH scene) as [IH1 IH2].
  unfold valid_values, column, substitute in *. simpl.
  destruct (0 <? m)%Z.
  - destruct (obj !! c) as [v|]; simpl; [| by split].
    split.
    + intros w [-> | Hw]%elem_of_cons; [by left | by right; apply IH1].
    + intros y [-> | Hy]%elem_of_cons; [by left; left |].
      destruct (IH2 y Hy); [by left; right | by right].
  - rewrite list_lookup_fmap. destruct (obj !! c) as [v|]; simpl; [| by split].
    split.
    + intros w Hw. right. by apply IH1.
    + intros y [-> | Hy]%elem_of_cons; [by right | by apply IH2].
Qed.

(** The reduction of one scene after substitution, component by component. *)
Lemma scene_extremum (le : float T → float T → Prop)
    (op : float T → float T → float T) (fill : float T) C mask scene :
  (∀ a b c, le a b → le b c → le a c) →
  (∀ a b, le (op a b) a) → (∀ a b, le (op a b) b) →
  (∀ a b, op a b = a ∨ op a b = b) →
  (∀ v, le fill v → v = fill) →
  length mask = length scene → scene ≠ [] →
  Forall (λ obj : list (float T), length obj = C) scene →
  ∃ red,
    reduce_dim op (substitute fill mask scene) = Ok red ∧
    length red = C ∧
    ∀ c, c < C →
      ∃ x, red !! c = Some x ∧
           Forall (le x) (valid_values mask scene c) ∧
           (x ∈ valid_values mask scene c
            ∨ (valid_values mask scene c = [] ∧ x = fill)).
Proof.
  intros Htrans Hl Hr Hch Htop Hlen Hne Hrect.
  pose proof (substitute_rows fill C mask scene Hrect) as Hrows.
  destruct (substitute fill mask scene) as [|row rows] eqn:Hsub.
  { destruct mask, scene; done. }
  apply Forall_cons in Hrows as [Hrow Hrows].
  exists (foldl (zip_with op) row rows). split; [done |].
  split; [by eapply foldl_zip_with_length |].
  intros c Hc.
  destruct (lookup_lt_is_Some_2 row c) as [x0 Hx0]; [lia |].
  exists (foldl op x0 (column c rows)).
  split; [by eapply foldl_zip_with_lookup |].
  destruct (foldl_extremum le op Htrans Hl Hr Hch (column c rows) x0) as [Hall Hin].
  destruct (valid_values_column fill mask scene c) as [Hsub1 Hsub2].
  rewrite Hsub in Hsub1, Hsub2.
  assert (Hcol : column c (row :: rows) = x0 :: column c rows).
  { unfold column. simpl. by rewrite Hx0. }
  rewrite Hcol in Hsub1, Hsub2.
  by eapply extremum_of_valid.
Qed.

Lemma batch_extremum (le : float T → float T → Prop)
    (op : float T → float T → float T) (fill : float T) C
    (scene_mask : list (list Z)) (xyz : list (list (list (float T)))) :
  (∀ a b c, le a b → le b c → le a c) →
  (∀ a b, le (op a b) a) → (∀ a b, le (op a b) b) →
  (∀ a b, op a b = a ∨ op a b = b) →
  (∀ v, le fill v → v = fill) →
  Forall2 (λ m scene, length m = length scene) scene_mask xyz →
  Forall (λ scene, scene ≠ [] ∧ Forall (λ obj, length obj = C) scene) xyz →
  ∃ reds,
    mapM (reduce_dim op) (zip_with (substitute fill) scene_mask xyz) = Ok reds ∧
    ∀ b m scene, scene_mask !! b = Some m → xyz !! b = Some scene →
      ∃ red, reds !! b = Some red ∧
             reduce_dim op (substitute fill m scene) = Ok red ∧
             length red = C ∧
             ∀ c, c < C →
               ∃ x, red !! c = Some x ∧
                    Forall (le x) (valid_values m scene c) ∧
                    (x ∈ valid_values m scene c
                     ∨ (valid_values m scene c = [] ∧ x = fill)).
Proof.
  intros Htrans Hl Hr Hch Htop Hshape.
  induction Hshape as [|m scene scene_mask xyz Hlen _ IH]; intros Hwf.
  - exists []. split; [done |]. intros b m scene Hb. by rewrite lookup_nil in Hb.
  - apply Forall_cons in Hwf as [[Hne Hrect] Hwf].
    destruct (IH Hwf) as (reds & Hreds & Hlookup).
    destruct (scene_extremum le op fill C m scene Htrans Hl Hr Hch Htop Hlen Hne Hrect)
      as (red & Hred & Hrest).
    exists (red :: reds). split.
    + simpl. rewrite Hred. cbn [mbind result_bind].
      change (mapM (reduce_dim op) (zip_with (substitute fill) scene_mask xyz)
              ≫= (λ k, mret (red :: k)) = Ok (red :: reds)).
      by rewrite Hreds.
    + intros [|b] m' scene' Hm Hs; simplify_eq/=; [by exists red | by apply Hlookup].
Qed.

Lemma valid_values_none (mask : list Z) (scene : list (list (float T))) c :
  Forall (λ m, (m ≤ 0)%Z) mask → valid_values mask scene c = [].
Proof.
  intros Hmask. revert scene.
  induction Hmask as [|m mask Hm _ IH]; intros [|obj scene]; try done.
  unfold valid_values in *. simpl.
  destruct (Z.ltb_spec 0 m); [lia | apply IH].
Qed.

(** C6. For a batch in which every scene has a mask entry per object slot
    and at least one slot, [get_min_max_coord] returns, for every scene and
    every coordinate component, the minimum and the maximum over the valid
    objects only; it gets them by reducing the rows in which the invalid
    slots hold [+inf] (for the minimum) and [-inf] (for the maximum), so a
    scene without any valid object gets [+inf] and [-inf] and no error. *)
Theorem get_min_max_coord_valid_only (xyz : list (list (list (float T))))
    (scene_mask : list (list Z)) (C : nat) :
  Forall2 (λ m scene, length m = length scene) scene_mask xyz →
  Forall (λ scene, scene ≠ [] ∧ Forall (λ obj, length obj = C) scene) xyz →
  ∃ mins maxs,
    get_min_max_coord xyz scene_mask = Ok (mins, maxs) ∧
    ∀ b m scene, scene_mask !! b = Some m → xyz !! b = Some scene →
      ∃ mn mx,
        mins !! b = Some mn ∧ maxs !! b = Some mx ∧
        reduce_dim fmin (substitute PosInf m scene) = Ok mn ∧
        reduce_dim fmax (substitute NegInf m scene) = Ok mx ∧
        length mn = C ∧ length mx = C ∧
        ∀ c, c < C →
          ∃ lo hi,
            mn !! c = Some lo ∧ mx !! c = Some hi ∧
            is_min_of lo (valid_values m scene c) ∧
            is_max_of hi (valid_values m scene c) ∧
            (Forall (λ v, (v ≤ 0)%Z) m → lo = PosInf ∧ hi = NegInf).
Proof.
  intros Hshape Hwf.
  destruct (batch_extremum (λ a b, fleb a b = true) fmin PosInf C scene_mask xyz)
    as (mins & Hmins & Hmin);
    [apply fleb_trans | apply fmin_l | apply fmin_r | apply fmin_choice
    | apply PosInf_top | done | done |].
  destruct (batch_extremum (λ a b, fleb b a = true) fmax NegInf C scene_mask xyz)
    as (maxs & Hmaxs & Hmax);
    [by intros a b c ? ?; apply (fleb_trans c b a) | apply fmax_l | apply fmax_r
    | apply fmax_choice | apply NegInf_bottom | done | done |].
  exists mins, maxs. split.
  - unfold get_min_max_coord. rewrite expand_as_Ok by done.
    cbn [mbind result_bind]. rewrite !where_positive_substitute.
    by rewrite Hmins, Hmaxs.
  - intros b m scene Hm Hs.
    destruct (Hmin b m scene Hm Hs) as (mn & Hmn & Hrmn & Hlmn & Hcmn).
    destruct (Hmax b m scene Hm Hs) as (mx & Hmx & Hrmx & Hlmx & Hcmx).
    exists mn, mx. do 6 (split; [done |]). intros c Hc.
    destruct (Hcmn c Hc) as (lo & Hlo & Hlo_all & Hlo_in).
    destruct (Hcmx c Hc) as (hi & Hhi & Hhi_all & Hhi_in).
    exists lo, hi. do 2 (split; [done |]).
    split; [by split |]. split; [by split |].
    intros Hnone. pose proof (valid_values_none m scene c Hnone) as Hnil.
    rewrite Hnil in Hlo_in, Hhi_in.
    destruct Hlo_in as [?%elem_of_nil | [_ ->]]; [done |].
    by destruct Hhi_in as [?%elem_of_nil | [_ ->]].
Qed.

End BoundsFacts.

Lemma get_min_max_coord_valid_only_witness :
  let xyz := [[[Fin 1; Fin 5; Fin 2]; [Fin 9; Fin 9; Fin 9]; [Fin 4; Fin 0; Fin 3]];
              [[Fin 7; Fin 7; Fin 7]; [Fin 8; Fin 8; Fin 8]; [Fin 6; Fin 6; Fin 6]]]%Z in
  let scene_mask := [[1; 0; 1]; [0; 0; 0]]%Z in
  ∃ mins maxs,
    get_min_max_coord xyz scene_mask = Ok (mins, maxs) ∧
    ∀ b m scene, scene_mask !! b = Some m → xyz !! b = Some scene →
      ∃ mn mx,
        mins !! b = Some mn ∧ maxs !! b = Some mx ∧
        reduce_dim fmin (substitute PosInf m scene) = Ok mn ∧
        reduce_dim fmax (substitute NegInf m scene) = Ok mx ∧
        length mn = 3 ∧ length mx = 3 ∧
        ∀ c, c < 3 →
          ∃ lo hi,
            mn !! c = Some lo ∧ mx !! c = Some hi ∧
            is_min_of lo (valid_values m scene c) ∧
            is_max_of hi (valid_values m scene c) ∧
            (Forall (λ v, (v ≤ 0)%Z) m → lo = PosInf ∧ hi = NegInf).
Proof.
  apply (get_min_max_coord_valid_only
           [[[Fin 1; Fin 5; Fin 2]; [Fin 9; Fin 9; Fin 9]; [Fin 4; Fin 0; Fin 3]];
            [[Fin 7; Fin 7; Fin 7]; [Fin 8; Fin 8; Fin 8]; [Fin 6; Fin 6; Fin 6]]]%Z
           [[1; 0; 1]; [0; 0; 0]]%Z 3).
  - repeat constructor.
  - repeat constructor; discriminate.
Defined.

(** The bounds of the example: the invalid slot of the first scene is left
    out; the second scene, without a valid object, gets the infinities. *)
Example get_min_max_coord_demo :
  get_min_max_coord
    [[[Fin 1; Fin 5; Fin 2]; [Fin 9; Fin 9; Fin 9]; [Fin 4; Fin 0; Fin 3]];
     [[Fin 7; Fin 7; Fin 7]; [Fin 8; Fin 8; Fin 8]; [Fin 6; Fin 6; Fin 6]]]%Z
    [[1; 0; 1]; [0; 0; 0]]%Z
  = Ok ([[Fin 1; Fin 0; Fin 2]; [PosInf; PosInf; PosInf]]%Z,
        [[Fin 4; Fin 5; Fin 3]; [NegInf; NegInf; NegInf]]%Z).
Proof. vm_compute. reflexivity. Qed.

(** ** 3D IoU *)

Section IoU.
Local Open Scope R_scope.

Lemma get_box3d_min_max_Raise (corner : list point) e :
  get_box3d_min_max corner = Raise e → corner = [] ∧ e = ValueError.
Proof.
  unfold get_box3d_min_max, reduce_axis0. destruct corner as [|p rest].
  - by intros [= <-].
  - cbn [mbind result_bind].
    repeat match goal with
           | |- context [foldl ?f p rest] => destruct (foldl f p rest) as [[? ?] ?]
           end.
    done.
Qed.

(** The IoU does not depend on the order of the two boxes, errors
    included. *)
Theorem box3d_iou_sym (corners1 corners2 : list point) :
  box3d_iou corners1 corners2 = box3d_iou corners2 corners1.
Proof.
  unfold box3d_iou.
  destruct (get_box3d_min_max corners1) as [[[[[[x0 x1] y0] y1] z0] z1]|e1] eqn:H1,
    (get_box3d_min_max corners2) as [[[[[[x0' x1'] y0'] y1'] z0'] z1']|e2] eqn:H2;
    cbn [mbind result_bind].
  - unfold mret, result_ret. f_equal.
    rewrite (Rmax_comm x0 x0'), (Rmax_comm y0 y0'), (Rmax_comm z0 z0'),
      (Rmin_comm x1 x1'), (Rmin_comm y1 y1'), (Rmin_comm z1 z1').
    f_equal. f_equal. lra.
  - done.
  - done.
  - apply get_box3d_min_max_Raise in H1 as [_ ->].
    by apply get_box3d_min_max_Raise in H2 as [_ ->].
Qed.

(** The extents of a constructed box for any size, negative components
    included: the center minus and plus half the absolute size. *)
Theorem construct_bbox_extents (cx cy cz sx sy sz : R) :
  get_box3d_min_max (construct_bbox_corners (cx, cy, cz) (sx, sy, sz))
  = Ok (cx - Rabs sx / 2, cx + Rabs sx / 2, cy - Rabs sy / 2,
        cy + Rabs sy / 2, cz - Rabs sz / 2, cz + Rabs sz / 2).
Proof.
  unfold get_box3d_min_max, construct_bbox_corners. simpl.
  unfold Rabs. destruct (Rcase_abs sx), (Rcase_abs sy), (Rcase_abs sz);
    repeat match goal with
           | |- context [Rmin ?a ?b] =>
               first [ rewrite (Rmin_left a b) by lra
                     | rewrite (Rmin_right a b) by lra ]
           | |- context [Rmax ?a ?b] =>
               first [ rewrite (Rmax_left a b) by lra
                     | rewrite (Rmax_right a b) by lra ]
           end;
    unfold mret, result_ret; f_equal;
    repeat match goal with |- (_, _) = (_, _) => f_equal end; lra.
Qed.

End IoU.

(** ** Stopping criterion *)

Lemma forallb_zip_eqb (a b : list Z) :
  length a = length b → (torch_all (zip_with Z.eqb a b) = true ↔ a = b).
Proof.
  unfold torch_all.
  revert b. induction a as [|x a IH]; intros [|y b] Hlen; simplify_eq/=; [done |].
  rewrite andb_true_iff, IH by done. rewrite Z.eqb_eq.
  split; [by intros [-> ->] | by intros [= -> ->]].
Qed.

Lemma tail_slice_suffix {A} (stop row : list A) :
  1 ≤ length stop ≤ length row →
  length (tail_slice (length stop) row) = length stop ∧
  (tail_slice (length stop) row = stop ↔ stop `suffix_of` row).
Proof.
  intros [H1 H2]. unfold tail_slice.
  destruct (Nat.eqb_spec (length stop) 0) as [? | _]; [lia |].
  split; [rewrite length_drop; lia |]. split.
  - intros <-. apply suffix_drop.
  - intros [pre ->]. rewrite length_app.
    replace (length pre + length stop - length stop) with (length pre) by lia.
    by rewrite drop_app_length.
Qed.

(** When every stop sequence is non-empty and no longer than the sequence
    generated so far, the criterion answers, and it answers [True] exactly
    when some stop sequence is a suffix of the first row of [input_ids]; the
    other rows are not looked at. *)
Theorem StoppingCriteriaSub_call_suffix (stops : list (list Z))
    (row : list Z) (others : list (list Z)) :
  Forall (λ stop, 1 ≤ length stop ≤ length row) stops →
  ∃ b, StoppingCriteriaSub_call stops (row :: others) = Ok b ∧
       (b = true ↔ Exists (λ stop, stop `suffix_of` row) stops).
Proof.
  induction 1 as [|stop stops Hlen _ (b & IH & Hb)].
  - exists false. split; [done |]. split; [done | by intros ?%Exists_nil].
  - destruct (tail_slice_suffix stop row Hlen) as [Hl Hsuf].
    cbn [StoppingCriteriaSub_call index lookup list_lookup mbind result_bind].
    unfold eq_broadcast. rewrite Hl, Nat.eqb_refl. cbn [mbind result_bind].
    destruct (torch_all _) eqn:Hall.
    + exists true. split; [done |]. split; [| done]. intros _. left.
      apply Hsuf. by apply forallb_zip_eqb in Hall.
    + exists b. split; [done |]. rewrite Hb, Exists_cons. split; [by right |].
      intros [Hs | ?]; [| done]. apply Hsuf in Hs.
      symmetry in Hs. apply forallb_zip_eqb in Hs; [congruence | done].
Qed.

Lemma StoppingCriteriaSub_call_suffix_witness :
  ∃ b, StoppingCriteriaSub_call [[7; 8]; [2; 3]]%Z
         ([1; 2; 3]%Z :: [[9; 9; 9]]%Z) = Ok b ∧
       (b = true ↔ Exists (λ stop, stop `suffix_of` [1; 2; 3]%Z) [[7; 8]; [2; 3]]%Z).
Proof.
  apply (StoppingCriteriaSub_call_suffix [[7; 8]; [2; 3]]%Z [1; 2; 3]%Z [[9; 9; 9]]%Z).
  repeat constructor; simpl; lia.
Defined.

(** A first stop sequence longer than a sequence of at least two tokens is
    not answered with [False]: the comparison of the two sizes is refused. *)
Theorem StoppingCriteriaSub_call_short_input (stop : list Z)
    (stops : list (list Z)) (row : list Z) (others : list (list Z)) :
  2 ≤ length row → length row < length stop →
  StoppingCriteriaSub_call (stop :: stops) (row :: others) = Raise RuntimeError.
Proof.
  intros H2 Hlt.
  cbn [StoppingCriteriaSub_call index lookup list_lookup mbind result_bind].
  unfold tail_slice. destruct (Nat.eqb_spec (length stop) 0) as [? | _]; [lia |].
  replace (length row - length stop) with 0 by lia. rewrite drop_0.
  unfold eq_broadcast. destruct (Nat.eqb_spec (length stop) (length row)); [lia |].
  destruct stop as [|? [|? ?]], row as [|? [|? ?]]; simpl in *; try lia; done.
Qed.

Lemma StoppingCriteriaSub_call_short_input_witness :
  StoppingCriteriaSub_call [[1; 2; 3]; [2]]%Z [[1; 2]]%Z = Raise RuntimeError.
Proof.
  apply (StoppingCriteriaSub_call_short_input [1; 2; 3]%Z [[2]]%Z [1; 2]%Z []);
    simpl; lia.
Defined.

(** ** Splitting at a separator *)

Lemma split_go_skip (sep cur : str) k s :
  split_go sep k cur s = split_go sep 0 cur (drop k s).
Proof.
  revert k. induction s as [|c s IH]; intros [|k]; try done. simpl. apply IH.
Qed.

Lemma split_Ok (s sep : str) : sep ≠ [] → split s sep = Ok (split_go sep 0 [] s).
Proof. by destruct sep. Qed.

Lemma split_go_nonempty (sep cur : str) k s : split_go sep k cur s ≠ [].
Proof.
  revert k cur. induction s as [|c s IH]; intros k cur; [done |].
  simpl. destruct k; [| apply IH]. destruct (startswith _ _); [done | apply IH].
Qed.

Lemma contains_false_cons (c : N) (s sub : str) :
  contains (c :: s) sub = false →
  startswith (c :: s) sub = false ∧ contains s sub = false.
Proof. simpl. by intros [? ?]%orb_false_elim. Qed.

Lemma contains_false_nonempty (s sub : str) : contains s sub = false → sub ≠ [].
Proof. intros H ->. by destruct s. Qed.

(** Without an occurrence of the separator there is one piece, the text. *)
Lemma split_go_absent (sep cur s : str) :
  contains s sep = false → split_go sep 0 cur s = [cur ++ s].
Proof.
  revert cur. induction s as [|c s IH]; intros cur Hc.
  - simpl. by rewrite app_nil_r.
  - apply contains_false_cons in Hc as [Hs Hc].
    cbn [split_go]. rewrite Hs, IH by done. by rewrite <- app_assoc.
Qed.

(** An occurrence cannot start inside [p0] and run into the separator that
    follows it. *)
Lemma no_straddle (sep p0 rest : str) :
  border_free sep → p0 ≠ [] →
  startswith p0 sep = false →
  startswith (p0 ++ sep ++ rest) sep = false.
Proof.
  intros Hbf Hne Hp0. destruct (startswith (p0 ++ sep ++ rest) sep) eqn:Hs; [| done].
  exfalso. apply startswith_prefix in Hs.
  assert (Hnot : ¬ sep `prefix_of` p0).
  { intros Hp%startswith_prefix. congruence. }
  destruct (prefix_weak_total sep p0 (p0 ++ sep ++ rest) Hs) as [? | [t Ht]];
    [by apply prefix_app_r | done |].
  assert (Hs' : p0 ++ t `prefix_of` p0 ++ (sep ++ rest)) by (by rewrite <- Ht).
  apply prefix_app_inv in Hs'.
  assert (Hlen : length t < length sep).
  { rewrite Ht, length_app. destruct p0; [done | simpl; lia]. }
  apply (Hbf t).
  - intros ->. rewrite app_nil_r in Ht. subst. by apply Hnot.
  - done.
  - destruct (prefix_weak_total t sep (sep ++ rest) Hs') as [? | Hp];
      [by apply prefix_app_r | done |].
    apply prefix_length in Hp. lia.
  - by exists p0.
Qed.

(** The first piece ends at the separator that follows a text without
    occurrence; the scan goes on after that separator. *)
Lemma split_go_first (sep cur p0 p1 : str) :
  border_free sep → sep ≠ [] → contains p0 sep = false →
  split_go sep 0 cur (p0 ++ sep ++ p1) = (cur ++ p0) :: split_go sep 0 [] p1.
Proof.
  intros Hbf Hsep. revert cur. induction p0 as [|c p0 IH]; intros cur Hc.
  - destruct sep as [|a sep]; [done |]. rewrite app_nil_l, app_nil_r.
    change ((a :: sep) ++ p1) with (a :: (sep ++ p1)). cbn [split_go].
    assert (startswith (a :: sep ++ p1) (a :: sep) = true) as ->.
    { apply startswith_prefix. by apply (prefix_app_r (a :: sep) (a :: sep) p1). }
    rewrite split_go_skip. cbn [length Nat.sub]. rewrite Nat.sub_0_r.
    by rewrite drop_app_length.
  - pose proof Hc as [Hs Hc']%contains_false_cons.
    change ((c :: p0) ++ sep ++ p1) with (c :: (p0 ++ sep ++ p1)). cbn [split_go].
    change (c :: (p0 ++ sep ++ p1)) with ((c :: p0) ++ sep ++ p1).
    rewrite (no_straddle sep (c :: p0) p1) by done.
    rewrite IH by done. by rewrite <- app_assoc.
Qed.

Lemma REPLACE_MARK_border_free : border_free REPLACE_MARK.
Proof.
  intros t Hne Hlen [k1 Hk1] [k2 Hk2].
  assert (Ht1 : t = take (length t) REPLACE_MARK)
    by (by rewrite Hk1, take_app_length).
  assert (Ht2 : t = drop (9 - length t) REPLACE_MARK).
  { rewrite Hk2. apply (f_equal length) in Hk2.
    rewrite length_app in Hk2. simpl in Hk2.
    replace (9 - length t) with (length k2) by lia. by rewrite drop_app_length. }
  simpl in Hlen. rewrite Ht1 in Ht2 at 1.
  destruct (length t) as [|[|[|[|[|[|[|[|[|n]]]]]]]]]; simpl in *;
    try done; try lia; destruct t; done.
Qed.

(** ** The fixed prefix and suffix of the prompt *)

(** With exactly one ["<REPLACE>"] in the prompt text, [prepare_fixed_embed]
    returns the embeddings of the text before it (tokenized with special
    tokens) and of the text after it (tokenized without); the two texts and
    the marker make up the prompt again. *)
Theorem prepare_fixed_embed_once {E} (self : Chat3D E) (system instruction : str)
    (tokenizer_special : str → encoding) (p_0 p_1 : str) :
  system ++ [SPACE] ++ instruction ++ [SPACE] ++ (role self).1 ++ [COLON; SPACE]
  = p_0 ++ REPLACE_MARK ++ p_1 →
  contains p_0 REPLACE_MARK = false →
  contains p_1 REPLACE_MARK = false →
  prepare_fixed_embed self system instruction tokenizer_special
  = Ok (embed_tokens self <$> input_ids (tokenizer_special p_0),
        embed_tokens self <$> input_ids (llama_tokenizer self p_1)).
Proof.
  intros Hprompt H0 H1. unfold prepare_fixed_embed. rewrite Hprompt.
  rewrite split_Ok by done. cbn [mbind result_bind].
  rewrite (split_go_first REPLACE_MARK [] p_0 p_1)
    by (done || apply REPLACE_MARK_border_free).
  by rewrite split_go_absent.
Qed.

(** Without any ["<REPLACE>"] in the prompt text, or with a second one after
    the first, the unpacking of the two pieces fails with [ValueError]. *)
Theorem prepare_fixed_embed_not_once {E} (self : Chat3D E)
    (system instruction : str) (tokenizer_special : str → encoding) :
  let prompt :=
    system ++ [SPACE] ++ instruction ++ [SPACE] ++ (role self).1
    ++ [COLON; SPACE] in
  (contains prompt REPLACE_MARK = false ∨
   ∃ p_0 p_1 p_2,
     prompt = p_0 ++ REPLACE_MARK ++ p_1 ++ REPLACE_MARK ++ p_2 ∧
     contains p_0 REPLACE_MARK = false ∧ contains p_1 REPLACE_MARK = false) →
  prepare_fixed_embed self system instruction tokenizer_special
  = Raise ValueError.
Proof.
  intros prompt Hcase. unfold prepare_fixed_embed. fold prompt.
  rewrite split_Ok by done. cbn [mbind result_bind].
  destruct Hcase as [Habs | (p_0 & p_1 & p_2 & -> & H0 & H1)].
  - by rewrite split_go_absent.
  - rewrite (split_go_first REPLACE_MARK [] p_0)
      by (done || apply REPLACE_MARK_border_free).
    rewrite (split_go_first REPLACE_MARK [] p_1)
      by (done || apply REPLACE_MARK_border_free).
    pose proof (split_go_nonempty REPLACE_MARK [] 0 p_2).
    by destruct (split_go REPLACE_MARK 0 [] p_2).
Qed.

Lemma prepare_fixed_embed_once_witness :
  prepare_fixed_embed (demo_model true false) [83]%N
    (REPLACE_MARK ++ [73]%N) (llama_tokenizer (demo_model true false))
  = Ok (embed_tokens (demo_model true false)
          <$> input_ids (llama_tokenizer (demo_model true false) [83; 32]%N),
        embed_tokens (demo_model true false)
          <$> input_ids (llama_tokenizer (demo_model true false)
                           [73; 32; 72; 117; 109; 97; 110; 58; 32]%N)).
Proof.
  apply (prepare_fixed_embed_once (demo_model true false) [83]%N
           (REPLACE_MARK ++ [73]%N) (llama_tokenizer (demo_model true false))
           [83; 32]%N [73; 32; 72; 117; 109; 97; 110; 58; 32]%N);
    reflexivity.
Defined.

Lemma prepare_fixed_embed_not_once_witness :
  prepare_fixed_embed (demo_model true false) [83]%N [73]%N
    (llama_tokenizer (demo_model true false))
  = Raise ValueError.
Proof.
  apply (prepare_fixed_embed_not_once (demo_model true false) [83]%N [73]%N
           (llama_tokenizer (demo_model true false))).
  left. reflexivity.
Defined.

(** ** The generation driver *)

Section EvaluateFacts.
Context {E : Type} `{!Row E}.

Lemma evaluate_loop_texts (self : Chat3D E) generate decode po pi ps sm cp n :
  ∀ i texts g out g',
    evaluate_loop self generate decode po pi ps sm cp i n texts g = Ok (out, g') →
    ∃ new,
      out = texts ++ new ∧ length new = n ∧
      Forall (λ t, ∃ decoded, evaluate_output_text self decoded = Ok t) new.
Proof.
  induction n as [|n IH]; intros i texts g out g' Hrun.
  - exists []. simpl in Hrun. injection Hrun as <- <-.
    by rewrite app_nil_r.
  - cbn [evaluate_loop] in Hrun. unfold mbind at 1, M_bind in Hrun.
    destruct (evaluate_inputs self po pi ps sm cp i g) as [[w g1]|e]; [| done].
    unfold mbind at 1, M_bind, lift in Hrun.
    destruct (evaluate_output_text self (decode (generate w))) as [t|e] eqn:Ht;
      [| done].
    apply IH in Hrun as (new & -> & Hn & Hall).
    exists (t :: new). split; [by rewrite <- app_assoc |].
    split; [simpl; by rewrite Hn |]. constructor; [by eexists | done].
Qed.

(** When [evaluate] returns, it returns one text per scene of the batch, in
    order, and each text is the post-processed decoding of some generation:
    it neither starts nor ends with whitespace. *)
Theorem evaluate_texts (self : Chat3D E) generate decode po pi ps sm cp g out g' :
  evaluate self generate decode po pi ps sm cp g = Ok (out, g') →
  length out = length po ∧
  Forall (λ t, (∀ c, head t = Some c → isspace c = false) ∧
               (∀ c, last t = Some c → isspace c = false)) out.
Proof.
  unfold evaluate. intros (new & -> & Hn & Hall)%evaluate_loop_texts.
  rewrite app_nil_l. split; [done |].
  eapply Forall_impl; [exact Hall |]. intros t [decoded Ht].
  unfold evaluate_output_text in Ht.
  destruct (split decoded (end_sym self)) as [pieces|]; [| done].
  cbn [mbind result_bind] in Ht. destruct (index pieces 0) as [piece|]; [| done].
  cbn [mbind result_bind] in Ht. injection Ht as <-.
  destruct (strip_spec (replace (replace piece [SPACE; SPACE] [SPACE])
                          [SPACE; PERIOD] [PERIOD]))
    as (l & r & _ & _ & _ & Hhd & Hlast).
  by split.
Qed.


End EvaluateFacts.


Lemma evaluate_texts_witness :
  let self := demo_model true false in
  let generate := λ w : list Z, [32; 111; 107; 32; 46; 35; 35; 35; 120]%Z in
  let decode := λ ts : list Z, Z.to_N <$> ts in
  let out := [[111; 107; 46]; [111; 107; 46]]%N in
  length out = length (proj_object_embed demo_batch) ∧
  Forall (λ t, (∀ c, head t = Some c → isspace c = false) ∧
               (∀ c, last t = Some c → isspace c = false)) out.
Proof.
  apply (evaluate_texts (demo_model true false)
           (λ w : list Z, [32; 111; 107; 32; 46; 35; 35; 35; 120]%Z)
           (λ ts : list Z, Z.to_N <$> ts)
           (proj_object_embed demo_batch) (proj_object_img_embed demo_batch)
           (proj_scene_embed demo_batch) (scene_mask demo_batch)
           (questions demo_batch) [5; 7] _ [7]).
  vm_compute. reflexivity.
Defined.

(** ** The sequence packer: what the loop returns *)

Section PackerMore.
Context {E : Type} `{!Row E}.

Lemma stage2_example_inv (self : Chat3D E) (b : batch E) i (q : str) g
    input_embed attn target g' :
  stage2_example self b i q g = Ok ((input_embed, attn, target), g') →
  ∃ block (a : str),
    answers b !! i = Some a ∧
    let wrapped :=
      p_0_embed self ++ block ++ p_1_embed self
      ++ get_text_emb self (prompt_of self q) in
    input_embed = wrapped ++ get_text_emb self (a ++ end_sym self) ∧
    attn = replicate (length wrapped) 1%Z
           ++ attention_mask (llama_tokenizer self (a ++ end_sym self)) ∧
    target = replicate (length wrapped) IGNORE ++ answer_labels self a.
Proof.
  unfold stage2_example, index, answer_labels, prompt_of.
  unfold mbind, M_bind, result_bind, lift, mret, M_ret, result_ret.
  destruct (proj_object_embed b !! i) as [eo|]; [| done].
  destruct (add_img_token self), (add_scene_token self);
    repeat match goal with
           | |- context [proj_object_img_embed b !! i] =>
               destruct (proj_object_img_embed b !! i); [| done]
           | |- context [proj_scene_embed b !! i] =>
               destruct (proj_scene_embed b !! i); [| done]
           end;
    (destruct (scene_mask b !! i) as [mk|]; [| done]);
    match goal with
    | |- context [get_object_list_embed ?s ?o ?im ?sc ?m g] =>
        destruct (get_object_list_embed s o im sc m g) as [[block g1]|]; [| done]
    end;
    (destruct (answers b !! i) as [a|]; [| done]);
    intros [= <- <- <- <-]; exists block, a; by rewrite length_replicate.
Qed.

(** The accumulators the loop returns are the examples of the questions, in
    order. *)
Lemma stage2_loop_inv (self : Chat3D E) (b : batch E) qs :
  ∀ i iel al tl m g iel' al' tl' m' g',
    stage2_loop self b i qs (iel, al, tl, m) g = Ok ((iel', al', tl', m'), g') →
    ∃ exs : list (packed E),
      iel' = iel ++ exs.*1.*1 ∧ al' = al ++ exs.*1.*2 ∧ tl' = tl ++ exs.*2 ∧
      m' = m `max` max_list (length <$> exs.*2) ∧
      length exs = length qs ∧
      ∀ k (q : str) ex, qs !! k = Some q → exs !! k = Some ex →
        ∃ g1 g2, stage2_example self b (i + k) q g1 = Ok (ex, g2).
Proof.
  induction qs as [|q qs IH]; intros i iel al tl m g iel' al' tl' m' g' Hrun.
  - simpl in Hrun. injection Hrun as <- <- <- <- <-. exists [].
    rewrite !app_nil_r. simpl. rewrite Nat.max_0_r. by repeat split.
  - cbn [stage2_loop] in Hrun. unfold mbind at 1, M_bind in Hrun.
    destruct (stage2_example self b i q g) as [[[[ie at'] tg] g1]|e] eqn:Hex;
      [| done].
    apply IH in Hrun as (exs & -> & -> & -> & -> & Hn & Hexs).
    exists ((ie, at', tg) :: exs). rewrite !fmap_cons.
    cbn [fst snd max_list max_list_with id].
    rewrite <- !app_assoc, Nat.max_assoc. do 4 (split; [done |]).
    split; [simpl; by rewrite Hn |].
    intros [|k] q' ex Hq Hk; simplify_eq/=.
    + rewrite Nat.add_0_r. by exists g, g1.
    + replace (i + S k) with (S i + k) by lia. by eapply Hexs.
Qed.

Lemma forward_stage2_inv (self : Chat3D E) (b : batch E) g out g' :
  forward_stage2 self b g = Ok (out, g') →
  ∃ exs : list (packed E),
    length exs = length (questions b) ∧
    (∀ k (q : str) ex, questions b !! k = Some q → exs !! k = Some ex →
       ∃ g1 g2, stage2_example self b k q g1 = Ok (ex, g2)) ∧
    let M := MAX_LEN `min` max_list (length <$> exs.*2) in
    max_seq_len out = M ∧
    labels out = (λ t, take M t ++ replicate (M - length t) IGNORE) <$> exs.*2.
Proof.
  unfold forward_stage2. unfold mbind at 1, M_bind.
  destruct (stage2_loop self b 0 (questions b) ([], [], [], 0) g)
    as [[[[[iel al] tl] m] g1]|e] eqn:Hloop; [| done].
  apply stage2_loop_inv in Hloop as (exs & -> & -> & -> & -> & Hn & Hexs).
  rewrite !app_nil_l, Nat.max_0_l.
  unfold mbind, M_bind, lift, mret, M_ret.
  destruct (pad_and_trim exs.*1.*1 _ row_zero) as [ie|]; [| done].
  destruct (pad_and_trim exs.*1.*2 _ 0%Z) as [am|]; [| done].
  destruct (pad_and_trim exs.*2 _ IGNORE) as [tg|] eqn:Htg; [| done].
  intros [= <- <-]. exists exs. split; [done |]. split; [exact Hexs |].
  cbn [max_seq_len labels]. split; [done |].
  destruct (decide (exs = [])) as [-> | Hne]; [done |].
  rewrite pad_and_trim_Ok in Htg; [by injection Htg | by destruct exs | done].
Qed.

(** A prompt that fills the cap leaves nothing to learn from: when the fixed
    prefix, the fixed suffix and the prompt of an example take at least 768
    positions together, the labels [forward_stage2] hands to the language
    model for that example are -100 at all the 768 positions. *)
Theorem forward_stage2_overflow_labels (self : Chat3D E) (b : batch E) g out g'
    i (q : str) :
  forward_stage2 self b g = Ok (out, g') →
  questions b !! i = Some q →
  MAX_LEN ≤ length (p_0_embed self) + length (p_1_embed self)
            + length (get_text_emb self (prompt_of self q)) →
  max_seq_len out = MAX_LEN ∧
  labels out !! i = Some (replicate MAX_LEN IGNORE).
Proof.
  intros (exs & Hn & Hexs & HM & Hlab)%forward_stage2_inv Hq Hlen.
  cbv zeta in HM, Hlab.
  destruct (lookup_lt_is_Some_2 exs i) as [[[ie at'] tg] Hex].
  { rewrite Hn. by eapply lookup_lt_Some. }
  destruct (Hexs i q _ Hq Hex) as (g1 & g2 & Hrun).
  apply stage2_example_inv in Hrun as (block & a & _ & _ & _ & Htg).
  cbv zeta in Htg.
  set (before := length (p_0_embed self ++ block ++ p_1_embed self
                         ++ get_text_emb self (prompt_of self q))) in *.
  assert (Hbefore : MAX_LEN ≤ before).
  { subst before. rewrite !length_app. lia. }
  assert (Hmax : MAX_LEN ≤ max_list (length <$> exs.*2)).
  { trans (length tg).
    - rewrite Htg, length_app, length_replicate. lia.
    - apply max_list_elem_of_le, list_elem_of_fmap. exists tg. split; [done |].
      apply list_elem_of_fmap. exists (ie, at', tg). split; [done |].
      by eapply list_elem_of_lookup_2. }
  assert (HMeq : MAX_LEN `min` max_list (length <$> exs.*2) = MAX_LEN)
    by (by apply Nat.min_l).
  rewrite HMeq in HM, Hlab. split; [done |].
  rewrite Hlab, !list_lookup_fmap. unfold packed in *. rewrite Hex. simpl.
  f_equal. rewrite Htg.
  rewrite take_app_le, take_replicate by (by rewrite length_replicate).
  rewrite length_app, length_replicate.
  replace (MAX_LEN - (before + length (answer_labels self a))) with 0 by lia.
  rewrite Nat.min_l by done. apply app_nil_r.
Qed.

End PackerMore.


Lemma forward_stage2_overflow_labels_witness :
  let b : batch Z :=
    {| proj_object_embed := [[100; 101; 102]]%Z;
       proj_object_img_embed := [[200; 201; 202]]%Z;
       proj_scene_embed := [[300; 301; 302]]%Z;
       scene_mask := [[1; 0; 1]]%Z;
       questions := [replicate 770 97%N];
       answers := [[120]%N] |} in
  ∃ out g',
    forward_stage2 (demo_model true false) b [5; 7] = Ok (out, g') ∧
    max_seq_len out = MAX_LEN ∧
    labels out !! 0 = Some (replicate MAX_LEN IGNORE).
Proof.
  intros b. eexists _, _. split; [vm_compute; reflexivity |].
  eapply (forward_stage2_overflow_labels (demo_model true false) b [5; 7] _ _ 0
            (replicate 770 97%N)).
  - vm_compute; reflexivity.
  - reflexivity.
  - apply Nat.leb_le. vm_compute. reflexivity.
Defined.


(** ** Scene bounds: what the invalid slots cannot do *)

Section BoundsMore.
Context {T : Type} `{!Ordered T}.

Lemma substitute_agree (fill : float T) (m : list Z)
    (scene scene' : list (list (float T))) :
  Forall3 (λ mk obj obj',
             length obj = length obj' ∧ ((0 < mk)%Z → obj = obj')) m scene scene' →
  substitute fill m scene = substitute fill m scene'.
Proof.
  unfold substitute.
  induction 1 as [|mk obj obj' m scene scene' [Hlen Hval] _ IH]; [done |].
  simpl. rewrite IH. f_equal. destruct (Z.ltb_spec 0 mk) as [Hpos | _].
  - by apply Hval.
  - clear -Hlen. revert obj' Hlen.
    induction obj as [|v obj IH]; intros [|v' obj'] Hlen; simplify_eq/=; [done |].
    f_equal. by apply IH.
Qed.

(** The coordinates stored in the slots the mask does not mark never reach
    the bounds: two coordinate tensors of one shape that agree on every slot
    whose mask entry is positive get the same result from
    [get_min_max_coord], be it bounds or an error. *)
Theorem get_min_max_coord_ignores_invalid
    (xyz xyz' : list (list (list (float T)))) (scene_mask : list (list Z)) :
  Forall3 (Forall3 (λ mk obj obj',
                      length obj = length obj' ∧ ((0 < mk)%Z → obj = obj')))
    scene_mask xyz xyz' →
  get_min_max_coord xyz scene_mask = get_min_max_coord xyz' scene_mask.
Proof.
  intros Hagree.
  assert (Hshape : Forall2 (λ m scene, length m = length scene) scene_mask xyz).
  { induction Hagree as [|m scene scene' ms ss ss' Hm _ IH]; constructor; [| done].
    clear -Hm. induction Hm; simpl; congruence. }
  assert (Hshape' : Forall2 (λ m scene, length m = length scene) scene_mask xyz').
  { induction Hagree as [|m scene scene' ms ss ss' Hm _ IH];
      [constructor | inversion_clear Hshape; constructor; [| by apply IH]].
    clear -Hm. induction Hm; simpl; congruence. }
  assert (Hsub : ∀ fill, zip_with (substitute fill) scene_mask xyz
                         = zip_with (substitute fill) scene_mask xyz').
  { intros fill. clear Hshape Hshape'.
    induction Hagree as [|m scene scene' ms ss ss' Hm _ IH]; [done |].
    simpl. by rewrite IH, (substitute_agree fill m scene scene'). }
  unfold get_min_max_coord. rewrite !expand_as_Ok by done.
  cbn [mbind result_bind]. by rewrite !where_positive_substitute, !Hsub.
Qed.

Lemma valid_values_some (mask : list Z) (scene : list (list (float T))) C c :
  length mask = length scene → Forall (λ obj, length obj = C) scene → c < C →
  Exists (λ mk, (0 < mk)%Z) mask → valid_values mask scene c ≠ [].
Proof.
  intros Hlen Hrect Hc Hex. revert scene Hlen Hrect.
  induction Hex as [mk mask Hpos | mk mask _ IH];
    intros [|obj scene] Hlen Hrect; simplify_eq/=;
    apply Forall_cons in Hrect as [Hobj Hrect]; unfold valid_values in *; simpl.
  - apply Z.ltb_lt in Hpos as ->.
    destruct (lookup_lt_is_Some_2 obj c) as [v ->]; [lia | done].
  - destruct (0 <? mk)%Z; [| by apply IH].
    destruct (lookup_lt_is_Some_2 obj c) as [v ->]; [lia | done].
Qed.

(** Whether the bounds of a scene are a range tells whether the scene has an
    object: in what [get_min_max_coord] returns, the minimum of a component
    is at most its maximum exactly when some slot of the scene has a positive
    mask entry; for a scene without one the pair is [+inf], [-inf]. *)
Theorem get_min_max_coord_ordered (xyz : list (list (list (float T))))
    (scene_mask : list (list Z)) (C : nat) mins maxs b m mn mx c lo hi :
  Forall2 (λ m scene, length m = length scene) scene_mask xyz →
  Forall (λ scene, scene ≠ [] ∧ Forall (λ obj, length obj = C) scene) xyz →
  get_min_max_coord xyz scene_mask = Ok (mins, maxs) →
  scene_mask !! b = Some m →
  mins !! b = Some mn → maxs !! b = Some mx →
  mn !! c = Some lo → mx !! c = Some hi →
  fleb lo hi = true ↔ Exists (λ mk, (0 < mk)%Z) m.
Proof.
  intros Hshape Hwf Hrun Hm Hmn Hmx Hlo Hhi.
  destruct (batch_extremum (λ a b, fleb a b = true) fmin PosInf C scene_mask xyz)
    as (mins' & Hmins & Hmin);
    [apply fleb_trans | apply fmin_l | apply fmin_r | apply fmin_choice
    | apply PosInf_top | done | done |].
  destruct (batch_extremum (λ a b, fleb b a = true) fmax NegInf C scene_mask xyz)
    as (maxs' & Hmaxs & Hmax);
    [by intros x y z ? ?; apply (fleb_trans z y x) | apply fmax_l | apply fmax_r
    | apply fmax_choice | apply NegInf_bottom | done | done |].
  unfold get_min_max_coord in Hrun. rewrite expand_as_Ok in Hrun by done.
  cbn [mbind result_bind] in Hrun.
  rewrite !where_positive_substitute, Hmins, Hmaxs in Hrun.
  injection Hrun as <- <-.
  destruct (Forall2_lookup_l _ _ _ _ _ Hshape Hm) as (scene & Hs & Hlen).
  destruct (Hmin b m scene Hm Hs) as (mn' & Hmn' & _ & Hlmn & Hcmn).
  destruct (Hmax b m scene Hm Hs) as (mx' & Hmx' & _ & Hlmx & Hcmx).
  assert (mn' = mn) as -> by congruence.
  assert (mx' = mx) as -> by congruence.
  assert (Hc : c < C) by (rewrite <- Hlmn; by eapply lookup_lt_Some).
  destruct (Hcmn c Hc) as (lo' & Hlo' & Hlo_all & Hlo_in).
  destruct (Hcmx c Hc) as (hi' & Hhi' & Hhi_all & Hhi_in).
  assert (lo' = lo) as -> by congruence.
  assert (hi' = hi) as -> by congruence.
  assert (Hrect : Forall (λ obj, length obj = C) scene).
  { eapply Forall_lookup_1 in Hwf as [_ ?]; done. }
  destruct (decide (Exists (λ mk, (0 < mk)%Z) m)) as [Hex | Hnex].
  - split; [done | intros _].
    pose proof (valid_values_some m scene C c Hlen Hrect Hc Hex) as Hne.
    destruct Hhi_in as [Hhi_in | [? _]]; [| done].
    eapply Forall_forall in Hlo_all; [exact Hlo_all | exact Hhi_in].
  - split; [| done]. intros Hle. exfalso.
    apply not_Exists_Forall in Hnex; [| intros ?; apply _].
    assert (Hnone : Forall (λ v, (v ≤ 0)%Z) m).
    { eapply Forall_impl; [exact Hnex |]. intros v Hv. simpl in Hv. lia. }
    pose proof (valid_values_none m scene c Hnone) as Hnil.
    rewrite Hnil in Hlo_in, Hhi_in.
    destruct Hlo_in as [?%elem_of_nil | [_ ->]]; [done |].
    destruct Hhi_in as [?%elem_of_nil | [_ ->]]; [done |]. done.
Qed.

End BoundsMore.

Lemma get_min_max_coord_ignores_invalid_witness :
  get_min_max_coord
    [[[Fin 1; Fin 5; Fin 2]; [Fin 9; Fin 9; Fin 9]; [Fin 4; Fin 0; Fin 3]]]%Z
    [[1; 0; 1]]%Z
  = get_min_max_coord
      [[[Fin 1; Fin 5; Fin 2]; [NegInf; Fin 70; PosInf]; [Fin 4; Fin 0; Fin 3]]]%Z
      [[1; 0; 1]]%Z.
Proof.
  apply (get_min_max_coord_ignores_invalid
           [[[Fin 1; Fin 5; Fin 2]; [Fin 9; Fin 9; Fin 9]; [Fin 4; Fin 0; Fin 3]]]%Z
           [[[Fin 1; Fin 5; Fin 2]; [NegInf; Fin 70; PosInf]; [Fin 4; Fin 0; Fin 3]]]%Z
           [[1; 0; 1]]%Z).
  repeat constructor; simpl; lia.
Defined.

Lemma get_min_max_coord_ordered_witness :
  fleb (Fin 0%Z) (Fin 5%Z) = true ↔ Exists (λ mk, (0 < mk)%Z) [1; 0; 1]%Z.
Proof.
  apply (get_min_max_coord_ordered
           [[[Fin 1; Fin 5; Fin 2]; [Fin 9; Fin 9; Fin 9]; [Fin 4; Fin 0; Fin 3]];
            [[Fin 7; Fin 7; Fin 7]; [Fin 8; Fin 8; Fin 8]; [Fin 6; Fin 6; Fin 6]]]%Z
           [[1; 0; 1]; [0; 0; 0]]%Z 3
           [[Fin 1; Fin 0; Fin 2]; [PosInf; PosInf; PosInf]]%Z
           [[Fin 4; Fin 5; Fin 3]; [NegInf; NegInf; NegInf]]%Z
           0 [1; 0; 1]%Z [Fin 1; Fin 0; Fin 2]%Z [Fin 4; Fin 5; Fin 3]%Z 1).
  - repeat constructor.
  - repeat constructor; discriminate.
  - vm_compute. reflexivity.
  - reflexivity.
  - reflexivity.
  - reflexivity.
  - reflexivity.
  - reflexivity.
Defined.


(** ** The interleaver: invalid slots and the size of the pool *)

Section InterleaverMore.
Context {E : Type} `{!Row E}.

Lemma index_list_agree (t t' : list E) ids :
  Forall (λ i, t !! i = t' !! i) ids → index_list t ids = index_list t' ids.
Proof.
  induction 1 as [|i ids Hi _ IH]; [done |]. simpl. unfold index.
  by rewrite Hi, IH.
Qed.

Lemma M_bind_Raise {A B} (m : M A) (f : A → M B) g e :
  m g = Raise e → (m ≫= f) g = Raise e.
Proof. unfold mbind, M_bind. by intros ->. Qed.

(** The embeddings stored in the slots of a scene whose mask entry is not 1
    never reach the block: with tables of the same sizes that agree on every
    slot marked 1, and the same random draws, [get_object_list_embed] gives
    the same result, be it a block or an error. *)
Theorem get_object_list_embed_ignores_invalid (self : Chat3D E)
    (embed_obj embed_obj' : list E) (embed_img embed_img' : option (list E))
    (embed_scene embed_scene' : option (list E)) (scene_mask : list Z) g :
  let same_valid (t t' : list E) :=
    length t = length t' ∧
    ∀ i, scene_mask !! i = Some 1%Z → t !! i = t' !! i in
  same_valid embed_obj embed_obj' →
  option_Forall2 same_valid embed_img embed_img' →
  option_Forall2 same_valid embed_scene embed_scene' →
  get_object_list_embed self embed_obj embed_img embed_scene scene_mask g
  = get_object_list_embed self embed_obj' embed_img' embed_scene' scene_mask g.
Proof.
  intros same_valid [Hlen Hobj] Himg Hscene.
  unfold get_object_list_embed.
  match goal with
  | |- (?f ≫= ?k) g = (?f' ≫= ?k') g =>
      set (first := f); set (rest := k); set (first' := f'); set (rest' := k')
  end.
  assert (Hfirst :
    (∃ old old' g1, first g = Ok (old, g1) ∧ first' g = Ok (old', g1))
    ∨ (∃ e, first g = Raise e ∧ first' g = Raise e)).
  { subst first first'. destruct (length (where_eq1 0 scene_mask) =? 1).
    - unfold mbind, M_bind, lift, mret, M_ret.
      destruct (randint 0 199 g) as [[r g1]|e]; [| right; by exists e].
      destruct (index (objid_embeds self) r) as [a|e]; [| right; by exists e].
      unfold index.
      destruct embed_obj as [|x eo], embed_obj' as [|x' eo']; simplify_eq/=.
      + right. by eexists.
      + left. by eexists _, _, _.
    - left. by exists None, None, g. }
  assert (Hrest : ∀ old old' g1, rest old g1 = rest' old' g1).
  { intros old old' g1. subst rest rest'. cbv beta.
    destruct (shuffle_Ok (where_eq1 0 scene_mask) g1) as (ids & g2 & Hsh & Hperm).
    rewrite !(M_bind_Ok _ _ _ _ _ Hsh).
    assert (Hvalid : ∀ t t', same_valid t t' →
              index_list t ids = index_list t' ids).
    { intros t t' [_ Ht]. apply index_list_agree, Forall_forall.
      intros i Hi. apply Ht. rewrite Hperm in Hi.
      apply where_eq1_spec in Hi as [_ Hi]. by rewrite Nat.sub_0_r in Hi. }
    unfold mbind at 1 26, M_bind, lift at 1 6.
    destruct (index_list _ ids) as [sel|e]; [| done].
    rewrite (Hvalid embed_obj embed_obj') by done.
    destruct Himg as [ei ei' Hi|], Hscene as [es es' Hs|];
      try rewrite (Hvalid ei ei') by done;
      try rewrite (Hvalid es es') by done; 
      unfold mbind, M_bind, lift, mret, M_ret, result_bind, result_ret;
      repeat match goal with
             | |- context [setitem_stride ?a ?b ?c ?d] =>
                 destruct (setitem_stride a b c d); [| done]
             | |- context [index_list ?a ?b] =>
                 destruct (index_list a b); [| done]
             end; done. }
  destruct Hfirst as [(old & old' & g1 & H1 & H2) | (e & H1 & H2)].
  - rewrite (M_bind_Ok _ _ _ _ _ H1), (M_bind_Ok _ _ _ _ _ H2). apply Hrest.
  - by rewrite (M_bind_Raise _ _ _ _ H1), (M_bind_Raise _ _ _ _ H2).
Qed.

Lemma index_list_Raise {A} (t : list A) ids e :
  index_list t ids = Raise e → e = IndexError.
Proof.
  induction ids as [|i ids IH]; simpl; [done |]. unfold index.
  destruct (t !! i); simpl; [| congruence].
  destruct (index_list t ids); simpl; [done |]. intros [= <-]. by apply IH.
Qed.

(** The pool of identifier tokens bounds the scene: when a slot marked 1 lies
    at or beyond the size of the pool (200 tokens in the model as built),
    [get_object_list_embed] returns no block and raises [IndexError],
    whatever the tables and the random draws. *)
Theorem get_object_list_embed_slot_beyond_pool (self : Chat3D E)
    (embed_obj : list E) (embed_img embed_scene : option (list E))
    (scene_mask : list Z) g i :
  scene_mask !! i = Some 1%Z → length (objid_embeds self) ≤ i →
  get_object_list_embed self embed_obj embed_img embed_scene scene_mask g
  = Raise IndexError.
Proof.
  intros Hi Hpool. unfold get_object_list_embed.
  match goal with
  | |- (?f ≫= ?k) g = _ => set (first := f); set (rest := k)
  end.
  assert (Hfirst : (∃ old g1, first g = Ok (old, g1)) ∨ first g = Raise IndexError).
  { subst first. destruct (length (where_eq1 0 scene_mask) =? 1).
    - unfold randint, randbelow.
      destruct g as [|d g]; unfold mbind, M_bind, lift, mret, M_ret, index;
        match goal with
        | |- context [objid_embeds self !! ?r] =>
            destruct (objid_embeds self !! r); [| by right]
        end;
        (destruct (embed_obj !! 0); [| by right]); left; by eexists _, _.
    - left. by exists None, g. }
  destruct Hfirst as [(old & g1 & H1) | H1]; [| by rewrite (M_bind_Raise _ _ _ _ H1)].
  rewrite (M_bind_Ok _ _ _ _ _ H1). subst rest. cbv beta.
  destruct (shuffle_Ok (where_eq1 0 scene_mask) g1) as (ids & g2 & Hsh & Hperm).
  rewrite (M_bind_Ok _ _ _ _ _ Hsh).
  assert (Hin : i ∈ ids).
  { rewrite Hperm. apply where_eq1_spec. split; [lia |]. by rewrite Nat.sub_0_r. }
  apply M_bind_Raise. unfold lift.
  assert (Hsame : (if negb (train_emb self) then detach (objid_embeds self)
                   else objid_embeds self) = objid_embeds self)
    by (by destruct (train_emb self)).
  rewrite Hsame.
  destruct (index_list (objid_embeds self) ids) as [rows|e] eqn:Hrows.
  - exfalso. apply index_list_Ok in Hrows.
    apply list_elem_of_lookup in Hin as [k Hk].
    destruct (Forall2_lookup_l _ _ _ _ _ Hrows Hk) as (a & _ & Ha).
    apply lookup_lt_Some in Ha. lia.
  - by rewrite (index_list_Raise _ _ _ Hrows).
Qed.

End InterleaverMore.

Lemma get_object_list_embed_ignores_invalid_witness :
  get_object_list_embed (demo_model true true) [100; 101; 102]%Z
    (Some [200; 201; 202]%Z) (Some [300; 301; 302]%Z) [1; 0; 1]%Z [5; 7]
  = get_object_list_embed (demo_model true true) [100; 999; 102]%Z
      (Some [200; 888; 202]%Z) (Some [300; 777; 302]%Z) [1; 0; 1]%Z [5; 7].
Proof.
  apply (get_object_list_embed_ignores_invalid (demo_model true true)
           [100; 101; 102]%Z [100; 999; 102]%Z
           (Some [200; 201; 202]%Z) (Some [200; 888; 202]%Z)
           (Some [300; 301; 302]%Z) (Some [300; 777; 302]%Z) [1; 0; 1]%Z [5; 7]).
  - split; [reflexivity |]. intros [|[|[|i]]]; simpl; try done.
  - constructor. split; [reflexivity |]. intros [|[|[|i]]]; simpl; try done.
  - constructor. split; [reflexivity |]. intros [|[|[|i]]]; simpl; try done.
Defined.

Lemma get_object_list_embed_slot_beyond_pool_witness :
  get_object_list_embed (demo_model false false) (replicate 201 7%Z) None None
    (replicate 200 0%Z ++ [1%Z]) [5; 7]
  = Raise IndexError.
Proof.
  apply (get_object_list_embed_slot_beyond_pool (demo_model false false)
           (replicate 201 7%Z) None None (replicate 200 0%Z ++ [1%Z]) [5; 7] 200).
  - reflexivity.
  - vm_compute. lia.
Defined.


(** ** Inference: when [evaluate] returns *)

Section EvaluateMore.
Context {E : Type} `{!Row E}.

Lemma evaluate_output_text_Ok (self : Chat3D E) (text : str) :
  end_sym self ≠ [] → ∃ t, evaluate_output_text self text = Ok t.
Proof.
  intros Hsep. unfold evaluate_output_text. rewrite split_Ok by done.
  cbn [mbind result_bind]. rewrite split_go_head. by eexists.
Qed.

Lemma evaluate_loop_Ok (self : Chat3D E) generate decode po pi ps sm
    (cp : list str) n :
  end_sym self ≠ [] →
  ∀ i texts g,
    (∀ j, i ≤ j < i + n →
       ∃ (q : str) embed_obj embed_img embed_scene mask,
         cp !! j = Some q ∧ po !! j = Some embed_obj ∧
         (if add_img_token self
          then ∃ t, pi !! j = Some t ∧ embed_img = Some t else embed_img = None) ∧
         (if add_scene_token self
          then ∃ t, ps !! j = Some t ∧ embed_scene = Some t
          else embed_scene = None) ∧
         sm !! j = Some mask ∧
         tables_cover self embed_obj embed_img embed_scene mask ∧
         (valid_count mask = 1 → 200 ≤ length (objid_embeds self))) →
    ∃ out g', evaluate_loop self generate decode po pi ps sm cp i n texts g
              = Ok (out, g').
Proof.
  intros Hsep. induction n as [|n IH]; intros i texts g Hwf; [by eexists _, _ |].
  destruct (Hwf i ltac:(lia))
    as (q & eo & ei & es & mask & Hq & Ho & Hi & Hs & Hm & Hcover & Hone).
  destruct (get_object_list_embed_length self eo ei es mask g Hcover Hone)
    as (block & g1 & Hrun & _).
  cbn [evaluate_loop].
  assert (Hin : evaluate_inputs self po pi ps sm cp i g
                = Ok (p_0_embed self ++ block ++ p_1_embed self
                      ++ get_text_emb self
                           ([SPACE] ++ q ++ [SPACE] ++ (role self).2
                            ++ [COLON; SPACE]), g1)).
  { unfold evaluate_inputs, index. rewrite Hq, Ho, Hm.
    rewrite (M_bind_Ok _ _ _ _ _ (lift_Ok _ _ _ eq_refl)).
    rewrite (M_bind_Ok _ _ _ _ _ (lift_Ok _ _ _ eq_refl)).
    erewrite M_bind_Ok; cycle 1.
    { destruct (add_img_token self); [| by rewrite Hi].
      destruct Hi as (t & -> & ->). done. }
    erewrite M_bind_Ok; cycle 1.
    { destruct (add_scene_token self); [| by rewrite Hs].
      destruct Hs as (t & -> & ->). done. }
    rewrite (M_bind_Ok _ _ _ _ _ (lift_Ok _ _ _ eq_refl)).
    by rewrite (M_bind_Ok _ _ _ _ _ Hrun). }
  rewrite (M_bind_Ok _ _ _ _ _ Hin).
  destruct (evaluate_output_text_Ok self
              (decode (generate (p_0_embed self ++ block ++ p_1_embed self
                  ++ get_text_emb self
                       ([SPACE] ++ q ++ [SPACE] ++ (role self).2
                        ++ [COLON; SPACE])))) Hsep) as [t Ht].
  rewrite (M_bind_Ok _ _ _ _ _ (lift_Ok _ _ _ Ht)).
  apply IH. intros j Hj. apply Hwf. lia.
Qed.

(** For a batch in which every scene has its prompt, its tables and its
    mask, the tables have a row per slot of the mask, and the end marker is
    not empty, [evaluate] returns, whatever the language model generates and
    the tokenizer decodes, and it returns one text per scene. *)
Theorem evaluate_returns (self : Chat3D E) generate decode po pi ps sm
    (cp : list str) g :
  end_sym self ≠ [] →
  (∀ j, j < length po →
     ∃ (q : str) embed_obj embed_img embed_scene mask,
       cp !! j = Some q ∧ po !! j = Some embed_obj ∧
       (if add_img_token self
        then ∃ t, pi !! j = Some t ∧ embed_img = Some t else embed_img = None) ∧
       (if add_scene_token self
        then ∃ t, ps !! j = Some t ∧ embed_scene = Some t
        else embed_scene = None) ∧
       sm !! j = Some mask ∧
       tables_cover self embed_obj embed_img embed_scene mask ∧
       (valid_count mask = 1 → 200 ≤ length (objid_embeds self))) →
  ∃ out g', evaluate self generate decode po pi ps sm cp g = Ok (out, g') ∧
            length out = length po.
Proof.
  intros Hsep Hwf. unfold evaluate.
  destruct (evaluate_loop_Ok self generate decode po pi ps sm cp (length po)
              Hsep 0 [] g) as (out & g' & Hrun).
  { intros j Hj. apply Hwf. lia. }
  exists out, g'. split; [done |].
  apply evaluate_loop_texts in Hrun as (new & -> & Hn & _). by rewrite app_nil_l.
Qed.

End EvaluateMore.

Lemma evaluate_returns_witness :
  ∃ out g',
    evaluate (demo_model true false) (λ w, [104; 105; 35; 35; 35; 120]%Z)
      (λ ids, Z.to_N <$> ids)
      [[100; 101; 102]; [110; 111; 112]]%Z [[200; 201; 202]; [210; 211; 212]]%Z
      [] [[1; 0; 1]; [0; 0; 0]]%Z [[97]; [98]]%N [5; 7]
    = Ok (out, g') ∧
    length out = 2.
Proof.
  apply (evaluate_returns (demo_model true false)
           (λ w, [104; 105; 35; 35; 35; 120]%Z) (λ ids, Z.to_N <$> ids)
           [[100; 101; 102]; [110; 111; 112]]%Z
           [[200; 201; 202]; [210; 211; 212]]%Z
           [] [[1; 0; 1]; [0; 0; 0]]%Z [[97]; [98]]%N [5; 7]).
  - discriminate.
  - intros [|[|j]] Hj; [| | simpl in Hj; lia].
    + exists [97]%N, [100; 101; 102]%Z, (Some [200; 201; 202]%Z), None, [1; 0; 1]%Z.
      do 2 (split; [reflexivity |]). split; [by eexists |].
      do 2 (split; [reflexivity |]). split; [| vm_compute; lia].
      unfold tables_cover. repeat constructor; vm_compute; lia.
    + exists [98]%N, [110; 111; 112]%Z, (Some [210; 211; 212]%Z), None, [0; 0; 0]%Z.
      do 2 (split; [reflexivity |]). split; [by eexists |].
      do 2 (split; [reflexivity |]). split; [| vm_compute; lia].
      unfold tables_cover. repeat constructor; vm_compute; lia.
Defined.
